(** * The pipeline builder of [index.ts], embedded in Rocq

    The library is one class, [PipelineBuilder], with two methods:
    [addPass] wraps a caller-supplied value into a uniform callable and
    pushes it on the builder's [passes] array, and [build] copies that
    array and returns the runner, a function that threads an environment
    object through the passes, merging what each pass returns, and that
    switches to promise-based execution at the first pass whose result is
    a thenable.

    The development has three layers.
    - JavaScript values, [typeof], truthiness, property reads and object
      spread, as far as [index.ts] uses them.
    - The runner itself, [run], over immutable values: the normalising
      [wrapper], the synchronous loop, and the promise chain built at the
      switch.  Every call of a pass is logged, so that statements about
      which passes were executed can be made.
    - Two store-level refinements, where objects have an identity: the
      builder's [passes] array ([Module Builder]) and the environment
      objects a run allocates ([Module EnvStore]).

    User code is represented by what it computes.  A function is a
    function of its receiver and its argument; a thenable is summarised
    by the state that a promise resolved with it reaches.  On values,
    passes act through what they return only; in [EnvStore] they may in
    addition write to the store, and the "then" of an environment object
    may settle a promise with an object of the store.  What holds only
    of passes that do not write is stated in [EnvStore], of passes of
    the form [pure p].  Scheduling (the order of microtasks among
    unrelated promises) is not represented: a promise is the state it
    ends in.

    Definitions come first, then the lemmas on each layer, then the
    properties of the specification, C1 to C10, then further properties
    of the runner. *)

From stdpp Require Import gmap strings list fin_maps pretty.

Set Default Proof Using "Type".
#[local] Set Warnings "-register-all".

(** ** JavaScript values *)

(** Function objects are references to code: a [VFunction] carries the
    identifier of its code and its own properties; what the code does is
    looked up in a table of closures (see [closure] below).  Numbers are
    restricted to integers. *)
Definition fid := nat.

Inductive value :=
  | VUndefined
  | VNull
  | VBool (b : bool)
  | VNum (n : Z)
  | VStr (s : string)
  | VObject (props : gmap string value)
  | VFunction (f : fid) (props : gmap string value).

(** What can be thrown, and what a promise can be rejected with: the
    [TypeError] the wrapper raises itself, or whatever user code threw. *)
Inductive exn :=
  | TypeError (msg : string)
  | Thrown (v : value).

(** The result of calling a function: it returns a value or it throws. *)
Inductive completion :=
  | Return (v : value)
  | Throw (e : exn).

(** The state a promise eventually reaches. *)
Inductive settlement :=
  | Fulfilled (v : value)
  | Rejected (e : exn)
  | Pending.

(** The code behind a function object, seen from the two places where
    [index.ts] (or the promise machinery on its behalf) calls user code:
    - [invoke this arg]: the function is called with one argument;
    - [subscribe this]: the function is called as [then(resolve, reject)]
      by promise resolution; the summary is the state that the promise
      resolved with the thenable eventually reaches. *)
Record closure := Closure {
  invoke : value → value → completion;
  subscribe : value → settlement;
}.

(** [typeof v] *)
Definition typeof (v : value) : string :=
  match v with
  | VUndefined => "undefined"
  | VNull => "object"
  | VBool _ => "boolean"
  | VNum _ => "number"
  | VStr _ => "string"
  | VObject _ => "object"
  | VFunction _ _ => "function"
  end.

(** [!!v] *)
Definition truthy (v : value) : bool :=
  match v with
  | VUndefined | VNull => false
  | VBool b => b
  | VNum n => negb (n =? 0)%Z
  | VStr s => negb (String.eqb s "")
  | VObject _ | VFunction _ _ => true
  end.

(** [v[k]] for the property names the library reads ("then" and "run"):
    an own property if there is one, [undefined] otherwise (the standard
    prototypes define neither name). *)
Definition get (v : value) (k : string) : value :=
  match v with
  | VObject props | VFunction _ props => default VUndefined (props !! k)
  | _ => VUndefined
  end.

(** [a || b] *)
Definition or_else (a b : value) : value := if truthy a then a else b.

(** The own enumerable properties that [{...v}] copies: those of an object
    or function, the indexed characters of a string, nothing for the other
    primitives. *)
Definition spread (v : value) : gmap string value :=
  match v with
  | VObject props | VFunction _ props => props
  | VStr s =>
      list_to_map
        (imap (λ i c, (pretty i, VStr (String c EmptyString)))
              (String.list_ascii_of_string s))
  | _ => ∅
  end.

(** [{ ...env, ...(out || {}) }]: the fields of [out] win. *)
Definition merge (env out : value) : gmap string value :=
  spread (or_else out (VObject ∅)) ∪ spread env.

(** [isThenable], index.ts lines 124-127. *)
Definition isThenable (v : value) : bool :=
  truthy v
  && (bool_decide (typeof v = "object") || bool_decide (typeof v = "function"))
  && bool_decide (typeof (get v "then") = "function").

(** A log of the calls made to passes: position in the sequence and the
    argument handed over. *)
Abbreviation trace := (list (nat * value)).

(** A pass as stored in the builder's array: a callable from the
    environment to a completion. *)
Abbreviation pass := (value → completion).

(** What calling the runner does. *)
Inductive run_result :=
  | Returned (env : gmap string value)
  | Raised (e : exn)
  | Handle (s : settlement).

(** ** Promises

    A promise is represented by the state it eventually reaches, together
    with the pass calls made on the way there. *)
Abbreviation promise := (settlement * trace)%type.

(** [p.then(cb)]: the callback runs only if [p] is fulfilled, and the
    promise it produces decides the result (a callback that returns a
    plain value produces [promise_resolve] of it, one that throws a
    rejected promise). *)
Definition promise_then (p : promise) (cb : value → promise) : promise :=
  match p with
  | (Fulfilled v, t) => let '(s, t') := cb v in (s, t ++ t')
  | (Rejected e, t) => (Rejected e, t)
  | (Pending, t) => (Pending, t)
  end.

Section runner.
Context (code : fid → closure).

(** [fn.call(this, arg)]: calling what is not a function is a
    [TypeError]. *)
Definition call (fn this arg : value) : completion :=
  match fn with
  | VFunction f _ => invoke (code f) this arg
  | _ => Throw (TypeError "not a function")
  end.

(** The state reached by a promise that is resolved with [v], as the
    language defines it: an object or function whose [then] is callable
    is adopted by calling that [then] on it, anything else fulfils the
    promise.  This is both [Promise.resolve(v)] and the treatment of a
    value returned from a [then] callback. *)
Definition settle (v : value) : settlement :=
  match v with
  | VObject _ | VFunction _ _ =>
      match get v "then" with
      | VFunction f _ => subscribe (code f) v
      | _ => Fulfilled v
      end
  | _ => Fulfilled v
  end.

Definition promise_resolve (v : value) : promise := (settle v, []).

(** The wrapper closure that [addPass] stores, index.ts lines 75-89.  A
    plain call [fn(env)] has no receiver; [maybeObj.run(env)] is a method
    call on [maybeObj]. *)
Definition wrapper (fn : value) : pass := λ env,
  if bool_decide (typeof fn = "function") then
    call fn VUndefined env
  else if truthy fn && bool_decide (typeof (get fn "run") = "function") then
    call (get fn "run") fn env
  else
    Throw (TypeError
      "addPass expects a function or an object with a run(env) method").

(** One round of the [reduce] callback, index.ts lines 146-153: pass
    number [j] is called once the accumulated promise is fulfilled. *)
Definition reduce_step (j : nat) (p : promise) (next : pass) : promise :=
  promise_then p (λ _env,
    match next _env with
    | Throw e => (Rejected e, [(j, _env)])
    | Return maybe =>
        let '(s, t) :=
          promise_then (promise_resolve maybe) (λ r,
            promise_resolve (VObject (merge _env r))) in
        (s, (j, _env) :: t)
    end).

(** [remaining.reduce(step, p)], with [j] the position of the head of
    [remaining] in the whole sequence. *)
Fixpoint reduce_passes (j : nat) (remaining : list pass) (p : promise)
    : promise :=
  match remaining with
  | [] => p
  | next :: rest => reduce_passes (S j) rest (reduce_step j p next)
  end.

(** The promise built at the switch, index.ts lines 141-156. *)
Definition switch (i : nat) (env : gmap string value) (out : value)
    (remaining : list pass) : promise :=
  promise_then (promise_resolve out) (λ resolvedOut,
    let env' := merge (VObject env) resolvedOut in
    promise_then
      (reduce_passes (S i) remaining (promise_resolve (VObject env')))
      (λ finalEnv, promise_resolve finalEnv)).

(** The loop of the runner, index.ts lines 132-163: [passes] is the part
    of the sequence from position [i] on, [log] the calls made so far. *)
Fixpoint run_from (i : nat) (passes : list pass) (env : gmap string value)
    (log : trace) : run_result * trace :=
  match passes with
  | [] => (Returned env, log)
  | pass :: remaining =>
      let log' := log ++ [(i, VObject env)] in
      match pass (VObject env) with
      | Throw e => (Raised e, log')
      | Return out =>
          if isThenable out then
            let '(s, t) := switch i env out remaining in
            (Handle s, log' ++ t)
          else run_from (S i) remaining (merge (VObject env) out) log'
      end
  end.

(** [let env = { ...(input || {}) }]; calling the runner without an
    argument makes [input] undefined. *)
Definition initial_env (input : value) : gmap string value :=
  spread (or_else input (VObject ∅)).

(** The runner returned by [build], applied to [input]. *)
Definition run (passes : list pass) (input : value) : run_result * trace :=
  run_from 0 passes (initial_env input) [].

Definition result (passes : list pass) (input : value) : run_result :=
  (run passes input).1.

Definition calls (passes : list pass) (input : value) : trace :=
  (run passes input).2.

End runner.

(** ** Objects with an identity

    The layers below place objects in a store, so that two references to
    the same object can be told from two objects with the same fields. *)
Definition loc := nat.

(** A new object, at a location that is not in use. *)
Definition alloc {A} (x : A) (h : gmap loc A) : loc * gmap loc A :=
  let l := fresh (dom h) in (l, <[l := x]> h).

Arguments alloc : simpl never.

(** ** The builder: the [passes] array and its copies

    The store holds the arrays of passes: the [passes] field of every
    builder, and the copy that every runner captured.  A builder is
    identified with the location of its [passes] array (the field is
    never reassigned), a runner with the location of its copy. *)
Module Builder.

Inductive op :=
  | AddPass (fn : value)
  | Build.

Section ops.
Context (code : fid → closure).

(** [pipeline()], that is [new PipelineBuilder()] with the field
    initialiser [passes = []]. *)
Definition pipeline (h : gmap loc (list pass)) : loc * gmap loc (list pass) :=
  alloc [] h.

(** [addPass(fn)]: [this.passes.push(wrapper); return this]. *)
Definition addPass (this : loc) (fn : value) (h : gmap loc (list pass))
    : loc * gmap loc (list pass) :=
  (this, <[this := (h !!! this) ++ [wrapper code fn]]> h).

(** [build()]: [const passes = this.passes.slice()], then the runner
    closure over [passes]. *)
Definition build (this : loc) (h : gmap loc (list pass))
    : loc * gmap loc (list pass) :=
  alloc (h !!! this) h.

(** Calling a runner: the loop reads the array the closure captured. *)
Definition call_runner (runner : loc) (input : value)
    (h : gmap loc (list pass)) : run_result * trace :=
  run code (h !!! runner) input.

(** Later operations on a builder. *)
Definition exec_op (this : loc) (o : op) (h : gmap loc (list pass))
    : gmap loc (list pass) :=
  match o with
  | AddPass fn => (addPass this fn h).2
  | Build => (build this h).2
  end.

Definition exec_ops (this : loc) (os : list op) (h : gmap loc (list pass))
    : gmap loc (list pass) :=
  foldl (λ h o, exec_op this o h) h os.

(** The passes that a list of operations registers, in order. *)
Definition registered (os : list op) : list pass :=
  omap (λ o, match o with
             | AddPass fn => Some (wrapper code fn)
             | Build => None
             end) os.

(** The chained calls [b.addPass(f1).addPass(f2)...]: every call is made
    on the builder that the call before returned. *)
Definition addPasses (this : loc) (fns : list value) (h : gmap loc (list pass))
    : loc * gmap loc (list pass) :=
  foldl (λ bh fn, addPass bh.1 fn bh.2) (this, h) fns.

End ops.

End Builder.

(** ** The runner over a store of environment objects

    The same runner as [run], with the objects that the caller and the
    runner create placed in a store: the caller's input object, and every
    object that an object literal of the runner allocates.  A pass is
    handed the reference to the environment and may write to the store.
    What a pass returns, and what a thenable that a pass returned
    resolves to, are values: the runner only spreads them.  What the
    "then" of an environment object resolves with is handed to the next
    pass as it is, and may be an object of the store ([adoption]). *)
Module EnvStore.

(** What a variable of the runner holds: a reference to an object of the
    store, or a value. *)
Inductive ref :=
  | Ref (l : loc)
  | Val (v : value).

Inductive ref_settlement :=
  | RFulfilled (x : ref)
  | RRejected (e : exn)
  | RPending.

Inductive ref_result :=
  | RReturned (env : loc)
  | RRaised (e : exn)
  | RHandle (s : ref_settlement).

Abbreviation store := (gmap loc (gmap string value)).

Abbreviation ref_trace := (list (nat * ref)).

(** A pass over the store: called on a reference, it completes and leaves
    a store. *)
Abbreviation store_pass := (ref → store → completion * store).

(** The value a reference stands for. *)
Definition deref (h : store) (x : ref) : value :=
  match x with
  | Ref l => VObject (h !!! l)
  | Val v => v
  end.

(** A pass that only reads its argument. *)
Definition pure (p : pass) : store_pass := λ x h, (p (deref h x), h).

(** A pass that writes at most to the object it is handed (and to objects
    it makes itself): every other object of the store stays as it is,
    and no object disappears. *)
Definition confined (q : store_pass) : Prop :=
  ∀ x h,
    (∀ l, l ∈ dom h → l ∈ dom (q x h).2)
    ∧ (∀ l m, h !! l = Some m → x ≠ Ref l → (q x h).2 !! l = Some m).

(** A promise: the state it eventually reaches, the pass calls made on
    the way, and the store at that point. *)
Abbreviation ref_promise := (ref_settlement * ref_trace * store)%type.

Definition promise_then (p : ref_promise) (cb : ref → store → ref_promise)
    : ref_promise :=
  match p with
  | (RFulfilled x, t, h) => let '(s, t', h') := cb x h in (s, t ++ t', h')
  | (RRejected e, t, h) => (RRejected e, t, h)
  | (RPending, t, h) => (RPending, t, h)
  end.

Definition of_settlement (s : settlement) : ref_settlement :=
  match s with
  | Fulfilled v => RFulfilled (Val v)
  | Rejected e => RRejected e
  | Pending => RPending
  end.

(** What promise resolution gets from an object of the store whose [then]
    is callable: the function, called on the object, settles the promise
    with a value or with a reference to an object of the store (one that
    the function holds, or one that it makes on the call), and may leave
    new objects in the store. *)
Abbreviation adoption := (fid → ref → store → ref_settlement * store).

Section ops.
Context (code : fid → closure) (adopt : adoption).

(** Resolving a promise with [x]: an object of the store fulfils the
    promise with the reference to it, unless its [then] is callable, and
    then the promise takes the state that this function gives it.  A
    value that a pass returned is resolved as on values: what it resolves
    to is only spread. *)
Definition settle (h : store) (x : ref) : ref_settlement * store :=
  match x with
  | Ref l =>
      match get (deref h x) "then" with
      | VFunction f _ => adopt f x h
      | _ => (RFulfilled x, h)
      end
  | Val v => (of_settlement (settle code v), h)
  end.

Definition promise_resolve (x : ref) (h : store) : ref_promise :=
  let '(s, h') := settle h x in (s, [], h').

(** The object literal [{ ...env, ...(out || {}) }]. *)
Definition merge_alloc (env out : ref) (h : store) : loc * store :=
  alloc (merge (deref h env) (deref h out)) h.

Definition reduce_step (j : nat) (p : ref_promise) (next : store_pass)
    : ref_promise :=
  promise_then p (λ _env h,
    let '(c, h1) := next _env h in
    match c with
    | Throw e => (RRejected e, [(j, _env)], h1)
    | Return maybe =>
        let '(s, t, h') :=
          promise_then (promise_resolve (Val maybe) h1) (λ r h,
            let '(l, h') := merge_alloc _env r h in
            promise_resolve (Ref l) h') in
        (s, (j, _env) :: t, h')
    end).

Fixpoint reduce_passes (j : nat) (remaining : list store_pass)
    (p : ref_promise) : ref_promise :=
  match remaining with
  | [] => p
  | next :: rest => reduce_passes (S j) rest (reduce_step j p next)
  end.

Definition switch (i : nat) (env : loc) (out : value)
    (remaining : list store_pass) (h : store) : ref_promise :=
  promise_then (promise_resolve (Val out) h) (λ resolvedOut h,
    let '(env', h') := merge_alloc (Ref env) resolvedOut h in
    promise_then
      (reduce_passes (S i) remaining (promise_resolve (Ref env') h'))
      (λ finalEnv h, promise_resolve finalEnv h)).

Fixpoint run_from (i : nat) (passes : list store_pass) (env : loc)
    (log : ref_trace) (h : store) : ref_result * ref_trace * store :=
  match passes with
  | [] => (RReturned env, log, h)
  | pass :: remaining =>
      let log' := log ++ [(i, Ref env)] in
      let '(c, h1) := pass (Ref env) h in
      match c with
      | Throw e => (RRaised e, log', h1)
      | Return out =>
          if isThenable out then
            let '(s, t, h') := switch i env out remaining h1 in
            (RHandle s, log' ++ t, h')
          else
            let '(env', h') := merge_alloc (Ref env) (Val out) h1 in
            run_from (S i) remaining env' log' h'
      end
  end.

(** [let env = { ...(input || {}) }] *)
Definition initial_alloc (input : ref) (h : store) : loc * store :=
  alloc (initial_env (deref h input)) h.

Definition run (passes : list store_pass) (input : ref) (h : store)
    : ref_result * ref_trace * store :=
  let '(env, h') := initial_alloc input h in
  run_from 0 passes env [] h'.

End ops.

(** Forgetting the identities: the values that the references stand for
    in store [h]. *)
Definition erase_settlement (h : store) (s : ref_settlement) : settlement :=
  match s with
  | RFulfilled x => Fulfilled (deref h x)
  | RRejected e => Rejected e
  | RPending => Pending
  end.

Definition erase_result (h : store) (r : ref_result) : run_result :=
  match r with
  | RReturned env => Returned (h !!! env)
  | RRaised e => Raised e
  | RHandle s => Handle (erase_settlement h s)
  end.

Definition erase_trace (h : store) (t : ref_trace) : trace :=
  prod_map id (deref h) <$> t.

Definition erase_promise (p : ref_promise) : promise :=
  (erase_settlement p.2 p.1.1, erase_trace p.2 p.1.2).

Definition erase_run (r : ref_result * ref_trace * store)
    : run_result * trace :=
  (erase_result r.2 r.1.1, erase_trace r.2 r.1.2).

(** The locations a run handed out: to passes, and as its result. *)
Definition ref_locs (x : ref) : list loc :=
  match x with
  | Ref l => [l]
  | Val _ => []
  end.

Definition result_locs (r : ref_result) : list loc :=
  match r with
  | RReturned env => [env]
  | RHandle (RFulfilled x) => ref_locs x
  | _ => []
  end.

Definition trace_locs (t : ref_trace) : list loc :=
  t ≫= (λ c, ref_locs c.2).

Definition run_locs (r : ref_result * ref_trace * store) : list loc :=
  result_locs r.1.1 ++ trace_locs r.1.2.

(** [since h0 h x]: if [x] is a reference, it is to an object of [h]
    that was not yet there in [h0]. *)
Definition since (h0 h : store) (x : ref) : Prop :=
  match x with
  | Ref l => (l ∉ dom h0) ∧ l ∈ dom h
  | Val _ => True
  end.

Definition since_settlement (h0 h : store) (s : ref_settlement) : Prop :=
  match s with
  | RFulfilled x => since h0 h x
  | _ => True
  end.

Definition since_result (h0 h : store) (r : ref_result) : Prop :=
  match r with
  | RReturned env => since h0 h (Ref env)
  | RRaised _ => True
  | RHandle s => since_settlement h0 h s
  end.

Definition since_trace (h0 h : store) (t : ref_trace) : Prop :=
  Forall (λ c, since h0 h c.2) t.

(** A promise of a run started in store [h0]: the objects of [h0] are as
    they were, and the references of the promise are to objects made
    since. *)
Definition grown (h0 : store) (p : ref_promise) : Prop :=
  h0 ⊆ p.2 ∧ since_settlement h0 p.2 p.1.1 ∧ since_trace h0 p.2 p.1.2.

(** A pass that marks the environment it is handed, in place:
    [env => { env.touched = true }]. *)
Definition touch : store_pass := λ x h,
  match x with
  | Ref l => (Return VUndefined, <[l := <["touched" := VBool true]> (h !!! l)]> h)
  | Val _ => (Return VUndefined, h)
  end.

(** The same pass returning an empty mapping:
    [env => { env.touched = true; return {} }]. *)
Definition mark : store_pass := λ x h,
  match x with
  | Ref l => (Return (VObject ∅), <[l := <["touched" := VBool true]> (h !!! l)]> h)
  | Val _ => (Return (VObject ∅), h)
  end.

(** A pass that removes a field from the environment it is handed:
    [env => { delete env[k] }]. *)
Definition drop (k : string) : store_pass := λ x h,
  match x with
  | Ref l => (Return VUndefined, <[l := delete k (h !!! l)]> h)
  | Val _ => (Return VUndefined, h)
  end.

(** A pass that gives the environment it is handed a [then] function:
    [env => { env.then = f }]. *)
Definition install_then (f : fid) : store_pass := λ x h,
  match x with
  | Ref l => (Return VUndefined, <[l := <["then" := VFunction f ∅]> (h !!! l)]> h)
  | Val _ => (Return VUndefined, h)
  end.

(** Adoption as the table [code] has it on values: the [then] function
    settles the promise with a value. *)
Definition values_adopt (code : fid → closure) : adoption := λ f x h,
  (of_settlement (subscribe (code f) (deref h x)), h).

(** [then: resolve => resolve(shared)], for an object [shared] that the
    function holds, at location [l]. *)
Definition resolve_with (l : loc) : adoption := λ _ _ h,
  (RFulfilled (Ref l), h).

(** A pass that does not make the environment it is handed a thenable. *)
Definition keeps_plain (q : store_pass) : Prop :=
  ∀ l h, isThenable (VObject (h !!! l)) = false →
         isThenable (VObject ((q (Ref l) h).2 !!! l)) = false.

(** A promise that, if it is fulfilled, is so with an object of the store
    that is not a thenable. *)
Definition plain_promise (p : ref_promise) : Prop :=
  ∀ x, p.1.1 = RFulfilled x →
       ∃ l, x = Ref l ∧ isThenable (VObject (p.2 !!! l)) = false.

(** The environment that a run delivered, returned or through its
    handle. *)
Definition delivered (r : ref_result) : option ref :=
  match r with
  | RReturned env => Some (Ref env)
  | RHandle (RFulfilled x) => Some x
  | _ => None
  end.

End EnvStore.

(** ** Reference notions used to state the properties *)

Section reference.
Context (code : fid → closure).

(** [immediate_run passes env env']: started on [env], every pass of
    [passes] returns normally a value that is not a thenable, and merging
    these values in order gives [env']. *)
Inductive immediate_run :
    list pass → gmap string value → gmap string value → Prop :=
  | immediate_nil env : immediate_run [] env env
  | immediate_cons p ps env out env' :
      p (VObject env) = Return out →
      isThenable out = false →
      immediate_run ps (merge (VObject env) out) env' →
      immediate_run (p :: ps) env env'.

(** [mapping_results passes env ms]: started on [env], every pass returns
    normally a mapping that is not a thenable; [ms] lists these mappings
    in order. *)
Inductive mapping_results :
    list pass → gmap string value → list (gmap string value) → Prop :=
  | mapping_nil env : mapping_results [] env []
  | mapping_cons p ps env m ms :
      p (VObject env) = Return (VObject m) →
      isThenable (VObject m) = false →
      mapping_results ps (m ∪ env) ms →
      mapping_results (p :: ps) env (m :: ms).

(** The input overlaid by the mappings of [ms], from first to last. *)
Definition overlay (input : gmap string value)
    (ms : list (gmap string value)) : gmap string value :=
  foldl (λ env m, m ∪ env) input ms.

(** The value of field [k] in the last mapping of [ms] that has it. *)
Fixpoint latest (k : string) (ms : list (gmap string value))
    : option value :=
  match ms with
  | [] => None
  | m :: rest =>
      match latest k rest with
      | Some v => Some v
      | None => m !! k
      end
  end.

(** [merged_through passes env env']: the environment merged through all
    of [passes] in order, each pass being called on the environment
    merged so far and contributing what its result resolves to (an
    immediate result counts as already resolved). *)
Inductive merged_through :
    list pass → gmap string value → gmap string value → Prop :=
  | merged_nil env : merged_through [] env env
  | merged_cons p ps env out r env' :
      p (VObject env) = Return out →
      settle code out = Fulfilled r →
      merged_through ps (merge (VObject env) r) env' →
      merged_through (p :: ps) env env'.

(** [fails p v x]: called on [v], pass [p] fails with [x]: it throws
    [x], or it returns a deferred value that is rejected with [x]. *)
Definition fails (p : pass) (v : value) (x : exn) : Prop :=
  p v = Throw x ∨ ∃ maybe, p v = Return maybe ∧ settle code maybe = Rejected x.

(** Deferred values never resolve to a value that is itself deferred:
    promise resolution follows such chains to their end. *)
Definition flat_table : Prop :=
  ∀ f this v, subscribe (code f) this = Fulfilled v → isThenable v = false.

End reference.

(** ** A reference for the whole run

    The runner written without the two modes, as the loop
    [for (const pass of passes) env = { ...env, ...((await pass(env)) || {}) }]:
    every result is awaited, whether it is deferred or not. *)

(** What a run delivers, whichever way it delivers it: an environment
    (returned, or fulfilling the handle), a failure (raised, or rejecting
    the handle), or nothing yet. *)
Definition outcome (r : run_result) : settlement :=
  match r with
  | Returned env => Fulfilled (VObject env)
  | Raised e => Rejected e
  | Handle s => s
  end.

Section sequential.
Context (code : fid → closure).

(** The loop above, started at position [j] on [env]: what it delivers
    and the calls it makes. *)
Fixpoint sequential (j : nat) (passes : list pass) (env : gmap string value)
    : settlement * trace :=
  match passes with
  | [] => (Fulfilled (VObject env), [])
  | pass :: rest =>
      match pass (VObject env) with
      | Throw e => (Rejected e, [(j, VObject env)])
      | Return out =>
          match settle code out with
          | Fulfilled r =>
              let '(s, t) := sequential (S j) rest (merge (VObject env) r) in
              (s, (j, VObject env) :: t)
          | Rejected e => (Rejected e, [(j, VObject env)])
          | Pending => (Pending, [(j, VObject env)])
          end
      end
  end.

(** [alike p q]: on every argument, [p] and [q] both throw the same
    thing, or return values that resolve alike (as a pass and a deferred
    version of it do). *)
Definition alike (p q : pass) : Prop :=
  ∀ v, match p v, q v with
       | Throw x, Throw y => x = y
       | Return a, Return b => settle code a = settle code b
       | _, _ => False
       end.

(** [stalls p v s]: called on [v], pass [p] returns a deferred value
    that ends in state [s], which is not a fulfilment. *)
Definition stalls (p : pass) (v : value) (s : settlement) : Prop :=
  (∀ r, s ≠ Fulfilled r)
  ∧ ∃ maybe, p v = Return maybe ∧ settle code maybe = s.

End sequential.

(** A result that adds nothing when merged: a falsy value, a number or a
    boolean. *)
Definition adds_nothing (out : value) : Prop :=
  truthy out = false ∨ typeof out = "number" ∨ typeof out = "boolean".

(** What a run over the store delivers, and the calls it makes, on
    values. *)
Definition delivery (r : EnvStore.ref_result * EnvStore.ref_trace * EnvStore.store)
    : settlement * trace :=
  (outcome (EnvStore.erase_run r).1, (EnvStore.erase_run r).2).

(** ** A sample table of closures

    The passes of test/index.test.ts and a few more, used to run the
    definitions on concrete pipelines. *)

(** [env.input + 1] and the like, on the integers the samples use. *)
Definition add_field (env : value) (k : string) (d : Z) : value :=
  match get env k with
  | VNum n => VNum (n + d)
  | _ => VUndefined
  end.

(** The text that a template literal inserts for [v]. *)
Definition to_text (v : value) : string :=
  match v with
  | VUndefined => "undefined"
  | VNull => "null"
  | VBool b => if b then "true" else "false"
  | VNum n => pretty n
  | VStr s => s
  | VObject _ => "[object Object]"
  | VFunction _ _ => "function"
  end.

(** A thenable in the style of the tests' helper
    [thenable(val) = { then: resolve => resolve(val) }]; the value that
    the closure holds is kept in a field of the object. *)
Definition thenable (val : value) : value :=
  VObject (<["then" := VFunction 2 ∅]> {[ "value" := val ]}).

Definition sample_code (f : fid) : closure :=
  match f with
  | 0 => (* env => ({ output: env.input + 1 }) *)
      Closure
        (λ _ env, Return (VObject {[ "output" := add_field env "input" 1 ]}))
        (λ _, Pending)
  | 1 => (* env => ({ log: `${env.input} => ${env.output}` }) *)
      Closure
        (λ _ env,
           Return (VObject {[ "log" :=
             VStr (to_text (get env "input") +:+ " => "
                   +:+ to_text (get env "output")) ]}))
        (λ _, Pending)
  | 2 => (* then: resolve => resolve(val) *)
      Closure
        (λ _ _, Return VUndefined)
        (λ this, Fulfilled (get this "value"))
  | 3 => (* env => thenable({ output: env.input + 10 }) *)
      Closure
        (λ _ env,
           Return (thenable (VObject {[ "output" := add_field env "input" 10 ]})))
        (λ _, Pending)
  | 4 => (* function (env) { return { self: typeof this } } *)
      Closure
        (λ this _, Return (VObject {[ "self" := VStr (typeof this) ]}))
        (λ _, Pending)
  | 5 => (* () => { throw "boom" } *)
      Closure
        (λ _ _, Throw (Thrown (VStr "boom")))
        (λ _, Pending)
  | 6 => (* then: (resolve, reject) => reject("late") *)
      Closure
        (λ _ _, Return VUndefined)
        (λ _, Rejected (Thrown (VStr "late")))
  | 7 => (* () => ({ then: (resolve, reject) => reject("late") }) *)
      Closure
        (λ _ _, Return (VObject {[ "then" := VFunction 6 ∅ ]}))
        (λ _, Pending)
  | 8 => (* () => ({ then: () => {} }), a "then" that never calls back *)
      Closure
        (λ _ _, Return (VObject {[ "then" := VFunction 10 ∅ ]}))
        (λ _, Pending)
  | 9 => (* (): void => { return; } *)
      Closure
        (λ _ _, Return VUndefined)
        (λ _, Pending)
  | _ => (* a function that does nothing and never calls back *)
      Closure (λ _ _, Return VUndefined) (λ _, Pending)
  end.

(** A second table, in which every deferred value resolves to a plain
    mapping. *)
Definition resolved_code (f : fid) : closure :=
  match f with
  | 0 => (* async () => ({ a: 1 }); the promise's then is function 1 *)
      Closure
        (λ _ _, Return (VObject {[ "then" := VFunction 1 ∅ ]}))
        (λ _, Pending)
  | 1 => (* then: resolve => resolve({ a: 1 }) *)
      Closure
        (λ _ _, Return VUndefined)
        (λ _, Fulfilled (VObject {[ "a" := VNum 1 ]}))
  | 2 => (* then: resolve => resolve({ x: 1 }) *)
      Closure
        (λ _ _, Return VUndefined)
        (λ _, Fulfilled (VObject {[ "x" := VNum 1 ]}))
  | 3 => (* env => ({ b: env.a }) *)
      Closure
        (λ _ env, Return (VObject {[ "b" := get env "a" ]}))
        (λ _, Pending)
  | _ => Closure (λ _ _, Return VUndefined) (λ _, Pending)
  end.

(** ** Values: classification and spread *)

Lemma typeof_function v :
  typeof v = "function" ↔ ∃ f props, v = VFunction f props.
Proof.
  split.
  - destruct v; simpl; try discriminate. eauto.
  - intros (f & props & ->). reflexivity.
Qed.

Lemma typeof_object v :
  typeof v = "object" ↔ v = VNull ∨ ∃ props, v = VObject props.
Proof.
  split.
  - destruct v; simpl; try discriminate; eauto.
  - intros [-> | [props ->]]; reflexivity.
Qed.

Lemma isThenable_spec v :
  isThenable v = true ↔
  v ≠ VNull ∧ (typeof v = "object" ∨ typeof v = "function")
  ∧ typeof (get v "then") = "function".
Proof.
  unfold isThenable.
  rewrite !andb_true_iff, orb_true_iff, !bool_decide_eq_true.
  split.
  - intros [[Ht Hty] Hthen]. split_and!; try done.
    intros ->. discriminate.
  - intros (Hn & Hty & Hthen). split_and!; try done.
    destruct v; try done; destruct Hty; discriminate.
Qed.

Lemma isThenable_object props :
  isThenable (VObject props) = bool_decide (typeof (get (VObject props) "then") = "function").
Proof. reflexivity. Qed.

Lemma settle_immediate code v : isThenable v = false → settle code v = Fulfilled v.
Proof.
  intros Hv. destruct v; try reflexivity; simpl in *.
  - unfold isThenable in Hv. simpl in Hv.
    destruct (default VUndefined (props !! "then")); try reflexivity.
    discriminate.
  - unfold isThenable in Hv. simpl in Hv.
    destruct (default VUndefined (props !! "then")); try reflexivity.
    discriminate.
Qed.

(** The keys that spreading a string produces are decimal numerals, so
    "then" is not among them. *)
Lemma pretty_N_go_not_then x s : s ≠ "then" → pretty_N_go x s ≠ "then".
Proof.
  revert s. induction (N.lt_wf_0 x) as [x _ IH]. intros s Hs.
  destruct (decide (x = 0)%N) as [-> | Hx].
  - by rewrite pretty_N_go_0.
  - rewrite pretty_N_go_step by lia.
    apply IH; [apply N.div_lt; lia |].
    unfold pretty_N_char. repeat case_match; discriminate.
Qed.

Lemma pretty_nat_not_then (i : nat) : pretty i ≠ "then".
Proof.
  unfold pretty, pretty_nat, pretty, pretty_N.
  case_decide; [discriminate |].
  by apply pretty_N_go_not_then.
Qed.

Lemma spread_string_then s : spread (VStr s) !! "then" = None.
Proof.
  simpl. apply not_elem_of_list_to_map_1.
  intros Hin. apply list_elem_of_fmap in Hin as ([k v] & Hk & Hin).
  apply elem_of_lookup_imap_1 in Hin as (i & c & Heq & _).
  simpl in Hk. injection Heq as -> _.
  by eapply pretty_nat_not_then.
Qed.

Lemma merge_object env m : merge (VObject env) (VObject m) = m ∪ env.
Proof. reflexivity. Qed.

Lemma merge_falsy env out : truthy out = false → merge (VObject env) out = env.
Proof.
  intros Hf. unfold merge, or_else. rewrite Hf. simpl.
  by rewrite (left_id_L ∅ (∪)).
Qed.

Lemma initial_env_merge input : initial_env input = merge (VObject ∅) input.
Proof. unfold initial_env, merge. simpl. by rewrite (right_id_L ∅ (∪)). Qed.

(** An environment exposes a callable [then] only if it had one already
    or the merged value brought one. *)
Lemma merge_not_thenable env r :
  isThenable (VObject env) = false →
  isThenable r = false →
  isThenable (VObject (merge (VObject env) r)) = false.
Proof.
  intros Henv Hr. rewrite isThenable_object in *. simpl in *.
  unfold merge, or_else.
  destruct (truthy r) eqn:Ht.
  - destruct r; simpl in *; try discriminate;
      rewrite ?(left_id_L ∅ (∪)); try done.
    + rewrite lookup_union_r; [done | apply spread_string_then].
    + unfold isThenable in Hr. simpl in Hr.
      rewrite lookup_union. destruct (props !! "then") as [v|] eqn:Hp; simpl in *.
      * by destruct (env !! "then").
      * by rewrite (left_id_L None _).
    + unfold isThenable in Hr. simpl in Hr.
      rewrite lookup_union. destruct (props !! "then") as [v|] eqn:Hp; simpl in *.
      * by destruct (env !! "then").
      * by rewrite (left_id_L None _).
  - simpl. by rewrite (left_id_L ∅ (∪)).
Qed.

Lemma initial_env_not_thenable input :
  isThenable input = false → isThenable (VObject (initial_env input)) = false.
Proof.
  intros Hin. rewrite initial_env_merge. by apply merge_not_thenable.
Qed.

(** ** The synchronous loop *)

Section sync.
Context (code : fid → closure).

(** A prefix of passes that all return immediate values is run through
    by the loop, one logged call per pass. *)
Lemma run_from_immediate ps env env' :
  immediate_run ps env env' →
  ∀ i, ∃ t, t.*1 = seq i (length ps) ∧
    ∀ rest log, run_from code i (ps ++ rest) env log
                = run_from code (length ps + i) rest env' (log ++ t).
Proof.
  induction 1 as [env | p ps env out env' Hp Hout _ IH]; intros i.
  - exists []. split; [done |]. intros rest log. by rewrite app_nil_r.
  - destruct (IH (S i)) as (t & Ht & Hrun).
    exists ((i, VObject env) :: t). split; [simpl; by f_equal |].
    intros rest log. simpl. rewrite Hp, Hout, Hrun.
    f_equal; [lia |]. by rewrite <- app_assoc.
Qed.

Lemma mapping_results_immediate ps env ms :
  mapping_results ps env ms → immediate_run ps env (overlay env ms).
Proof.
  induction 1 as [env | p ps env m ms Hp Hm _ IH]; [constructor |].
  econstructor; eauto.
Qed.

Lemma overlay_snoc env ms m : overlay env (ms ++ [m]) = m ∪ overlay env ms.
Proof. unfold overlay. by rewrite foldl_snoc. Qed.

Lemma latest_snoc k ms m :
  latest k (ms ++ [m]) = match m !! k with Some v => Some v | None => latest k ms end.
Proof.
  induction ms as [| m' ms IH]; simpl.
  - by destruct (m !! k).
  - rewrite IH. by destruct (m !! k), (latest k ms).
Qed.

Lemma overlay_lookup env ms k : overlay env ms !! k = latest k (env :: ms).
Proof.
  induction ms as [| m ms IH] using rev_ind; [done |].
  rewrite overlay_snoc, lookup_union, IH, app_comm_cons, latest_snoc.
  generalize (latest k (env :: ms)). intros o.
  by destruct (m !! k), o.
Qed.

End sync.

(** ** The promise chain *)

Section deferred.
Context (code : fid → closure).

Lemma settle_thenable v :
  isThenable v = true →
  ∃ f props, get v "then" = VFunction f props
             ∧ settle code v = subscribe (code f) v.
Proof.
  intros (Hn & Hty & Hthen)%isThenable_spec.
  apply typeof_function in Hthen as (f & props & Hthen).
  exists f, props. split; [done |].
  destruct v; try (destruct Hty; discriminate); try done;
    unfold settle; by rewrite Hthen.
Qed.

Lemma settle_flat out r :
  flat_table code → settle code out = Fulfilled r → isThenable r = false.
Proof.
  intros Hflat Hs. destruct (isThenable out) eqn:Hout.
  - destruct (settle_thenable out Hout) as (f & props & _ & Heq).
    rewrite Heq in Hs. eauto.
  - rewrite settle_immediate in Hs by done. by injection Hs as <-.
Qed.

(** A promise that is not fulfilled is carried through [reduce]
    unchanged: no further pass is called. *)
Lemma reduce_passes_stuck ps j s t :
  (∀ v, s ≠ Fulfilled v) → reduce_passes code j ps (s, t) = (s, t).
Proof.
  intros Hs. revert j. induction ps as [| next rest IH]; intros j; [done |].
  simpl. destruct s; [by destruct (Hs v) | |]; apply IH.
Qed.

(** One round of [reduce] on a fulfilled promise. *)
Lemma reduce_step_fulfilled j v t next :
  reduce_step code j (Fulfilled v, t) next =
  match next v with
  | Throw e => (Rejected e, t ++ [(j, v)])
  | Return maybe =>
      match settle code maybe with
      | Fulfilled r => (settle code (VObject (merge v r)), t ++ [(j, v)])
      | Rejected e => (Rejected e, t ++ [(j, v)])
      | Pending => (Pending, t ++ [(j, v)])
      end
  end.
Proof.
  unfold reduce_step, promise_then, promise_resolve.
  destruct (next v) as [maybe | e]; [| done].
  destruct (settle code maybe); simpl; try done.
Qed.

Lemma fails_returned (p : pass) v out x :
  p v = Return out → fails code p v x → settle code out = Rejected x.
Proof. intros Hp [Ht | (maybe & Hr & Hs)]; congruence. Qed.

Lemma reduce_step_shape j v t next :
  ∃ s, reduce_step code j (Fulfilled v, t) next = (s, t ++ [(j, v)])
       ∧ ∀ x, fails code next v x → s = Rejected x.
Proof.
  rewrite reduce_step_fulfilled. unfold fails.
  destruct (next v) as [maybe | e].
  - destruct (settle code maybe) eqn:Hs; eexists; (split; [done |]);
      intros x [? | (? & [= <-] & ?)]; congruence.
  - eexists. split; [done |]. intros x [? | (? & ? & _)]; congruence.
Qed.

(** The calls that [reduce] adds to the log are calls of the remaining
    passes, and a call that fails is the last one: the chain is
    rejected with its reason. *)
Lemma reduce_passes_calls ps :
  ∀ j0 s0 t0, ∃ t1,
    (reduce_passes code j0 ps (s0, t0)).2 = t0 ++ t1
    ∧ (∀ j v, (j, v) ∈ t1 → j0 ≤ j < j0 + length ps)
    ∧ (∀ j v q x,
         (j, v) ∈ t1 → ps !! (j - j0) = Some q → fails code q v x →
         (reduce_passes code j0 ps (s0, t0)).1 = Rejected x
         ∧ ∀ i v', (i, v') ∈ t1 → i ≤ j).
Proof.
  induction ps as [| next rest IH]; intros j0 s0 t0.
  { exists []. rewrite app_nil_r.
    split_and!; [done | intros ?? []%elem_of_nil | intros ???? []%elem_of_nil]. }
  destruct s0 as [v0 | e |];
    [| exists []; rewrite reduce_passes_stuck, app_nil_r by done;
       split_and!;
       [done | intros ?? []%elem_of_nil | intros ???? []%elem_of_nil] ..].
  cbn [reduce_passes].
  destruct (reduce_step_shape j0 v0 t0 next) as (s1 & -> & Hfail).
  destruct (IH (S j0) s1 (t0 ++ [(j0, v0)])) as (t1 & Ht & Hbound & Hlast).
  exists ((j0, v0) :: t1). split_and!.
  - rewrite <- app_assoc in Ht. exact Ht.
  - intros j v [[= -> ->] | Hin%Hbound]%elem_of_cons; simpl; lia.
  - intros j v q x [[= -> ->] | Hin]%elem_of_cons Hq Hx.
    + rewrite Nat.sub_diag in Hq. injection Hq as <-.
      rewrite (Hfail x Hx) in Ht |- *.
      rewrite reduce_passes_stuck in Ht |- * by done. simpl in *.
      rewrite <- (app_nil_r (t0 ++ [(j0, v0)])) in Ht at 1.
      apply app_inv_head in Ht. subst t1. split; [done |].
      intros i v' [[= -> ->] | ?%elem_of_nil]%elem_of_cons; [lia | done].
    + pose proof (Hbound _ _ Hin) as Hj.
      replace (j - j0) with (S (j - S j0)) in Hq by lia.
      destruct (Hlast j v q x Hin Hq Hx) as [Hres Hle].
      split; [done |].
      intros i v' [[= -> ->] | Hin']%elem_of_cons; [lia | eauto].
Qed.

(** The promise built at the switch, by cases. *)
Lemma switch_unfold i env out remaining :
  switch code i env out remaining =
  match settle code out with
  | Fulfilled r =>
      let p := reduce_passes code (S i) remaining
                 (settle code (VObject (merge (VObject env) r)), []) in
      (match p.1 with
       | Fulfilled v => settle code v
       | Rejected e => Rejected e
       | Pending => Pending
       end, p.2)
  | Rejected e => (Rejected e, [])
  | Pending => (Pending, [])
  end.
Proof.
  unfold switch, promise_resolve.
  destruct (settle code out); simpl; try done.
  destruct (reduce_passes _ _ _ _) as [[v' | e |] t]; simpl; try done.
  by rewrite app_nil_r.
Qed.

Lemma merged_through_cons_inv p ps env env' :
  merged_through code (p :: ps) env env' →
  ∃ out r, p (VObject env) = Return out ∧ settle code out = Fulfilled r
           ∧ merged_through code ps (merge (VObject env) r) env'.
Proof. inversion 1; subst; eauto. Qed.

Lemma merged_through_app ps qs env env' :
  merged_through code (ps ++ qs) env env' ↔
  ∃ mid, merged_through code ps env mid ∧ merged_through code qs mid env'.
Proof.
  revert env. induction ps as [| p ps IH]; intros env; simpl.
  - split; [intros H; exists env; split; [constructor | done] |].
    intros (mid & Hnil & H). by inversion Hnil; subst.
  - split.
    + intros (out & r & Hp & Hs & Hrest)%merged_through_cons_inv.
      apply IH in Hrest as (mid & H1 & H2).
      exists mid. split; [econstructor; eauto | done].
    + intros (mid & H1 & H2).
      apply merged_through_cons_inv in H1 as (out & r & Hp & Hs & Hrest).
      econstructor; eauto. apply IH. eauto.
Qed.

Lemma merged_through_det ps env e1 e2 :
  merged_through code ps env e1 → merged_through code ps env e2 → e1 = e2.
Proof.
  intros H1. revert e2.
  induction H1 as [env | p ps env out r env' Hp Hs _ IH]; intros e2 H2.
  - by inversion H2.
  - apply merged_through_cons_inv in H2 as (out' & r' & Hp' & Hs' & Hrest).
    rewrite Hp in Hp'. injection Hp' as <-.
    rewrite Hs in Hs'. injection Hs' as <-. by apply IH.
Qed.

Lemma immediate_run_merged ps env env' :
  immediate_run ps env env' → merged_through code ps env env'.
Proof.
  induction 1; econstructor; eauto using settle_immediate.
Qed.

Lemma immediate_run_not_thenable ps env env' :
  immediate_run ps env env' →
  isThenable (VObject env) = false → isThenable (VObject env') = false.
Proof. induction 1; auto using merge_not_thenable. Qed.

Lemma merged_through_not_thenable ps env env' :
  flat_table code →
  merged_through code ps env env' →
  isThenable (VObject env) = false → isThenable (VObject env') = false.
Proof.
  intros Hflat. induction 1; eauto using merge_not_thenable, settle_flat.
Qed.

(** From an environment without a callable [then], and with deferred
    values that resolve to plain values, the chain is fulfilled exactly
    with the environment merged through the remaining passes. *)
Lemma reduce_passes_merged ps :
  flat_table code →
  ∀ j env t,
    isThenable (VObject env) = false →
    ∀ v, (reduce_passes code j ps (Fulfilled (VObject env), t)).1 = Fulfilled v ↔
         ∃ e, merged_through code ps env e ∧ v = VObject e
              ∧ isThenable (VObject e) = false.
Proof.
  intros Hflat. induction ps as [| next rest IH]; intros j env t Henv v.
  - simpl. split.
    + intros [= <-]. exists env. split_and!; [constructor | done..].
    + intros (e & He & -> & _). by inversion He.
  - cbn [reduce_passes]. rewrite reduce_step_fulfilled.
    destruct (next (VObject env)) as [maybe | x] eqn:Hnext.
    + destruct (settle code maybe) as [r | x |] eqn:Hset.
      * assert (isThenable (VObject (merge (VObject env) r)) = false) as Hpl
          by eauto using merge_not_thenable, settle_flat.
        rewrite (settle_immediate _ _ Hpl), IH by done.
        split; intros (e & He & -> & Hpe); exists e; split_and!; try done.
        -- econstructor; eauto.
        -- apply merged_through_cons_inv in He as (out' & r' & Hp' & Hs' & Hrest).
           rewrite Hnext in Hp'. injection Hp' as <-.
           rewrite Hset in Hs'. by injection Hs' as <-.
      * rewrite reduce_passes_stuck by done. simpl. split; [done |].
        intros (e & (? & ? & ? & ? & _)%merged_through_cons_inv & _).
        congruence.
      * rewrite reduce_passes_stuck by done. simpl. split; [done |].
        intros (e & (? & ? & ? & ? & _)%merged_through_cons_inv & _).
        congruence.
    + rewrite reduce_passes_stuck by done. simpl. split; [done |].
      intros (e & (? & ? & ? & ? & _)%merged_through_cons_inv & _).
      congruence.
Qed.

End deferred.

(** ** Runs that stay synchronous, and passes that agree *)

Section runs.
Context (code : fid → closure).

Lemma result_immediate passes input env' :
  immediate_run passes (initial_env input) env' →
  result code passes input = Returned env'.
Proof.
  intros Hrun. destruct (run_from_immediate code _ _ _ Hrun 0) as (t & _ & Heq).
  unfold result, run. specialize (Heq [] []). rewrite app_nil_r in Heq.
  by rewrite Heq.
Qed.

(** The loop never leaves the synchronous mode when every pass it
    reaches throws or returns an immediate value. *)
Lemma run_from_no_handle passes :
  ∀ i env log,
    (∀ pre p post e out,
       passes = pre ++ p :: post → immediate_run pre env e →
       p (VObject e) = Return out → isThenable out = false) →
    ∀ s, (run_from code i passes env log).1 ≠ Handle s.
Proof.
  induction passes as [| p rest IH]; intros i env log Himm s; [done |].
  simpl. destruct (p (VObject env)) as [out | x] eqn:Hp; [| done].
  assert (isThenable out = false) as Hout.
  { apply (Himm [] p rest env out); [done | constructor | done]. }
  rewrite Hout. apply IH.
  intros pre q post e out' -> Hpre Hq.
  apply (Himm (p :: pre) q post e out'); [done | | done].
  econstructor; eauto.
Qed.

(** Passes that agree on every argument are run alike. *)
Lemma reduce_passes_ext ps qs :
  Forall2 (λ p q : pass, ∀ v, p v = q v) ps qs →
  ∀ j acc, reduce_passes code j ps acc = reduce_passes code j qs acc.
Proof.
  induction 1 as [| p q ps qs Hpq _ IH]; intros j acc; [done |].
  simpl. rewrite IH. f_equal.
  destruct acc as [[v | e |] t]; simpl; try done. by rewrite Hpq.
Qed.

Lemma switch_ext ps qs i env out :
  Forall2 (λ p q : pass, ∀ v, p v = q v) ps qs →
  switch code i env out ps = switch code i env out qs.
Proof.
  intros Hall. unfold switch, promise_resolve.
  destruct (settle code out); simpl; try done.
  by rewrite (reduce_passes_ext _ _ Hall).
Qed.

Lemma run_from_ext ps qs :
  Forall2 (λ p q : pass, ∀ v, p v = q v) ps qs →
  ∀ i env log, run_from code i ps env log = run_from code i qs env log.
Proof.
  induction 1 as [| p q ps qs Hpq Hall IH]; intros i env log; [done |].
  simpl. rewrite Hpq. destruct (q (VObject env)) as [out | x]; [| done].
  destruct (isThenable out); [| apply IH].
  by rewrite (switch_ext _ _ _ _ _ Hall).
Qed.

End runs.

(** ** Failures *)

Section failures.
Context (code : fid → closure).

(** The run up to the pass that follows a prefix of immediate ones. *)
Lemma run_at_throw (pre : list pass) (p : pass) (post : list pass)
    input env x :
  immediate_run pre (initial_env input) env →
  p (VObject env) = Throw x →
  ∃ t, t.*1 = seq 0 (length pre)
       ∧ run code (pre ++ p :: post) input
         = (Raised x, t ++ [(length pre, VObject env)]).
Proof.
  intros Hpre Hp.
  destruct (run_from_immediate code _ _ _ Hpre 0) as (t & Ht & Heq).
  exists t. split; [done |]. unfold run. rewrite Heq. simpl.
  by rewrite Hp, Nat.add_0_r.
Qed.

Lemma run_at_switch (pre : list pass) (p : pass) (post : list pass)
    input env out :
  immediate_run pre (initial_env input) env →
  p (VObject env) = Return out →
  isThenable out = true →
  ∃ t, t.*1 = seq 0 (length pre)
       ∧ run code (pre ++ p :: post) input
         = (Handle (switch code (length pre) env out post).1,
            (t ++ [(length pre, VObject env)])
            ++ (switch code (length pre) env out post).2).
Proof.
  intros Hpre Hp Hout.
  destruct (run_from_immediate code _ _ _ Hpre 0) as (t & Ht & Heq).
  exists t. split; [done |]. unfold run. rewrite Heq. simpl.
  rewrite Hp, Hout, Nat.add_0_r. by destruct (switch _ _ _ _ _).
Qed.

Lemma prefix_calls_lt (t : trace) k j v :
  t.*1 = seq 0 k → (j, v) ∈ t → j < k.
Proof.
  intros Ht Hin.
  assert (j ∈ t.*1) as Hj by (apply list_elem_of_fmap; by exists (j, v)).
  rewrite Ht in Hj. apply elem_of_seq in Hj. lia.
Qed.

(** After the switch, a call that fails rejects the handle and is the
    last call of the run. *)
Lemma failure_after_switch (pre : list pass) (p : pass) (post : list pass)
    (input : value) (env : gmap string value) out :
  immediate_run pre (initial_env input) env →
  p (VObject env) = Return out → isThenable out = true →
  ∀ j v q x,
    (j, v) ∈ calls code (pre ++ p :: post) input →
    length pre ≤ j →
    (pre ++ p :: post) !! j = Some q →
    fails code q v x →
    result code (pre ++ p :: post) input = Handle (Rejected x)
    ∧ ∀ i v', (i, v') ∈ calls code (pre ++ p :: post) input → i ≤ j.
Proof.
  intros Hpre Hp Hout j v q x.
  destruct (run_at_switch pre p post input env out Hpre Hp Hout)
    as (t & Ht & Hrun).
  unfold result, calls. rewrite Hrun. clear Hrun.
  rewrite switch_unfold.
  destruct (settle code out) as [r | e |] eqn:Hs; cbn [fst snd].
  - destruct (reduce_passes_calls code post (S (length pre))
                (settle code (VObject (merge (VObject env) r))) [])
      as (t1 & Ht1 & Hbound & Hlast).
    change ([] ++ t1) with t1 in Ht1. rewrite Ht1.
    intros [[Hin%(prefix_calls_lt _ _ _ _ Ht) | [= -> ->]%list_elem_of_singleton]%elem_of_app
           | Hin]%elem_of_app Hj Hq Hx; [lia | |].
    + rewrite list_lookup_middle in Hq by done. injection Hq as <-.
      apply (fails_returned _ _ _ _ _ Hp) in Hx. congruence.
    + pose proof (Hbound _ _ Hin) as Hjb.
      rewrite lookup_app_r, lookup_cons_ne_0 in Hq by lia.
      replace (Init.Nat.pred (j - length pre)) with (j - S (length pre)) in Hq by lia.
      destruct (Hlast j v q x Hin Hq Hx) as [-> Hle]. split; [done |].
      intros i v'
        [[Hi%(prefix_calls_lt _ _ _ _ Ht) | [= -> ->]%list_elem_of_singleton]%elem_of_app
        | Hi]%elem_of_app; [lia | lia | eauto].
  - rewrite app_nil_r.
    intros [Hin%(prefix_calls_lt _ _ _ _ Ht) | [= -> ->]%list_elem_of_singleton]%elem_of_app
      Hj Hq Hx; [lia |].
    rewrite list_lookup_middle in Hq by done. injection Hq as <-.
    apply (fails_returned _ _ _ _ _ Hp) in Hx.
    split; [congruence |].
    intros i v'
      [Hi%(prefix_calls_lt _ _ _ _ Ht) | [= -> ->]%list_elem_of_singleton]%elem_of_app;
      lia.
  - rewrite app_nil_r.
    intros [Hin%(prefix_calls_lt _ _ _ _ Ht) | [= -> ->]%list_elem_of_singleton]%elem_of_app
      Hj Hq Hx; [lia |].
    rewrite list_lookup_middle in Hq by done. injection Hq as <-.
    apply (fails_returned _ _ _ _ _ Hp) in Hx. congruence.
Qed.

End failures.

(** ** The builder's store *)

Lemma alloc_spec {A} (x : A) (h : gmap loc A) l h' :
  alloc x h = (l, h') → (l ∉ dom h) ∧ h' = <[l := x]> h.
Proof. intros [= <- <-]. split; [apply is_fresh | done]. Qed.

Lemma build_spec b (h : gmap loc (list pass)) r h' :
  Builder.build b h = (r, h') →
  (r ∉ dom h) ∧ h' !!! r = h !!! b
  ∧ ∀ l, l ∈ dom h → l ∈ dom h' ∧ h' !!! l = h !!! l.
Proof.
  intros [Hfresh ->]%alloc_spec.
  split_and!; [done | by rewrite lookup_total_insert_eq |].
  intros l Hl. split; [set_solver |].
  rewrite lookup_total_insert_ne; [done | set_solver].
Qed.

Section builder.
Context (code : fid → closure).

Lemma addPass_spec b fn (h : gmap loc (list pass)) b' h' :
  Builder.addPass code b fn h = (b', h') →
  b' = b ∧ h' !!! b = (h !!! b) ++ [wrapper code fn] ∧ b ∈ dom h'
  ∧ ∀ l, l ≠ b → l ∈ dom h → l ∈ dom h' ∧ h' !!! l = h !!! l.
Proof.
  intros [= <- <-]. split_and!; [done | | set_solver |].
  - by rewrite lookup_total_insert_eq.
  - intros l Hne Hl. split; [set_solver |]. by rewrite lookup_total_insert_ne.
Qed.

Lemma exec_ops_cons b o ops (h : gmap loc (list pass)) :
  Builder.exec_ops code b (o :: ops) h
  = Builder.exec_ops code b ops (Builder.exec_op code b o h).
Proof. reflexivity. Qed.

Lemma registered_add fn ops :
  Builder.registered code (Builder.AddPass fn :: ops)
  = wrapper code fn :: Builder.registered code ops.
Proof. reflexivity. Qed.

Lemma registered_build ops :
  Builder.registered code (Builder.Build :: ops) = Builder.registered code ops.
Proof. reflexivity. Qed.

(** Operations on a builder grow its own array and leave every other
    array of the store as it is. *)
Lemma exec_ops_spec b ops :
  ∀ h : gmap loc (list pass), b ∈ dom h →
    b ∈ dom (Builder.exec_ops code b ops h)
    ∧ Builder.exec_ops code b ops h !!! b = (h !!! b) ++ Builder.registered code ops
    ∧ ∀ l, l ≠ b → l ∈ dom h →
           l ∈ dom (Builder.exec_ops code b ops h)
           ∧ Builder.exec_ops code b ops h !!! l = h !!! l.
Proof.
  induction ops as [| o ops IH]; intros h Hb.
  { simpl. by rewrite app_nil_r. }
  rewrite exec_ops_cons. destruct o as [fn |].
  - rewrite registered_add. unfold Builder.exec_op.
    destruct (Builder.addPass code b fn h) as [b' h1] eqn:Hadd.
    destruct (addPass_spec _ _ _ _ _ Hadd) as (_ & Hown & Hdom & Hother).
    cbn [snd]. destruct (IH _ Hdom) as (Hb' & Hown' & Hother').
    split_and!; [done | |].
    + by rewrite Hown', Hown, <- app_assoc.
    + intros l Hne Hl. destruct (Hother l Hne Hl) as [Hl1 Heq1].
      destruct (Hother' l Hne Hl1) as [Hl2 Heq2]. split; congruence.
  - rewrite registered_build. unfold Builder.exec_op.
    destruct (Builder.build b h) as [r h1] eqn:Hbuild.
    destruct (build_spec _ _ _ _ Hbuild) as (Hfresh & _ & Hold).
    cbn [snd]. destruct (Hold b Hb) as [Hb1 Hbeq].
    destruct (IH _ Hb1) as (Hb' & Hown' & Hother').
    split_and!; [done | |].
    + by rewrite Hown', Hbeq.
    + intros l Hne Hl. destruct (Hold l Hl) as [Hl1 Heq1].
      destruct (Hother' l Hne Hl1) as [Hl2 Heq2]. split; congruence.
Qed.

End builder.

(** ** The store of environment objects: what a run leaves untouched *)

Section env_store.
Context (code : fid → closure).

Lemma alloc_grows (m : gmap string value) h l h' :
  alloc m h = (l, h') →
  h ⊆ h' ∧ (l ∉ dom h) ∧ l ∈ dom h' ∧ h' !!! l = m.
Proof.
  intros [Hfresh ->]%alloc_spec.
  apply not_elem_of_dom in Hfresh as Hnone.
  split_and!.
  - by apply insert_subseteq.
  - done.
  - apply elem_of_dom. rewrite lookup_insert_eq. eauto.
  - by rewrite lookup_total_insert_eq.
Qed.

Lemma subseteq_dom_elem (h h' : EnvStore.store) l :
  h ⊆ h' → l ∈ dom h → l ∈ dom h'.
Proof.
  intros Hsub [m Hm]%elem_of_dom. apply elem_of_dom.
  exists m. by eapply lookup_weaken.
Qed.

Lemma since_dom h0 h h' x :
  (∀ l, l ∈ dom h → l ∈ dom h') →
  EnvStore.since h0 h x → EnvStore.since h0 h' x.
Proof.
  intros Hdom. destruct x as [l | v]; [| done].
  intros [Hnew Hin]. split; [done | by apply Hdom].
Qed.

Lemma since_trace_dom h0 h h' t :
  (∀ l, l ∈ dom h → l ∈ dom h') →
  EnvStore.since_trace h0 h t → EnvStore.since_trace h0 h' t.
Proof.
  intros Hdom Ht. eapply Forall_impl; [exact Ht |].
  intros c. by apply since_dom.
Qed.

Lemma since_of_settlement h0 h s :
  EnvStore.since_settlement h0 h (EnvStore.of_settlement s).
Proof. by destruct s. Qed.

Lemma settle_values_store h x :
  (EnvStore.settle code (EnvStore.values_adopt code) h x).2 = h.
Proof.
  destruct x as [l | v]; simpl; [| done].
  by destruct (default VUndefined ((h !!! l) !! "then")).
Qed.

Lemma settle_since h0 h x :
  EnvStore.since h0 h x →
  EnvStore.since_settlement h0 h
    (EnvStore.settle code (EnvStore.values_adopt code) h x).1.
Proof.
  intros Hx. destruct x as [l | v]; simpl.
  - destruct (default VUndefined ((h !!! l) !! "then")); simpl;
      auto using since_of_settlement.
  - apply since_of_settlement.
Qed.

Lemma promise_resolve_values x h :
  EnvStore.promise_resolve code (EnvStore.values_adopt code) x h
  = ((EnvStore.settle code (EnvStore.values_adopt code) h x).1, [], h).
Proof.
  unfold EnvStore.promise_resolve.
  pose proof (settle_values_store h x) as Hst.
  destruct (EnvStore.settle _ _ h x) as [s h']. simpl in Hst. by subst.
Qed.

Lemma promise_resolve_store x h :
  (EnvStore.promise_resolve code (EnvStore.values_adopt code) x h).2 = h.
Proof. by rewrite promise_resolve_values. Qed.

Lemma promise_resolve_grown h0 h x :
  h0 ⊆ h → EnvStore.since h0 h x →
  EnvStore.grown h0 (EnvStore.promise_resolve code (EnvStore.values_adopt code) x h).
Proof.
  intros Hsub Hx. rewrite promise_resolve_values.
  split_and!; [done | by apply settle_since | constructor].
Qed.

(** [then]: a callback that keeps the objects of [h0] and the objects of
    the store it starts from makes a promise that does. *)
Lemma promise_then_grown h0 (p : EnvStore.ref_promise) cb :
  EnvStore.grown h0 p →
  (∀ x, p.1.1 = EnvStore.RFulfilled x →
        EnvStore.grown h0 (cb x p.2)
        ∧ ∀ l, l ∈ dom p.2 → l ∈ dom (cb x p.2).2) →
  EnvStore.grown h0 (EnvStore.promise_then p cb)
  ∧ ∀ l, l ∈ dom p.2 → l ∈ dom (EnvStore.promise_then p cb).2.
Proof.
  destruct p as [[[x | e |] t] h]; cbn [fst snd EnvStore.promise_then];
    intros (Hsub & Hs & Ht) Hcb; [| by split_and! ..].
  destruct (Hcb x eq_refl) as ((Hsub' & Hs' & Ht') & Hdom).
  destruct (cb x h) as [[s' t'] h'].
  unfold EnvStore.grown in *. cbn [fst snd] in *.
  split_and!; try done.
  apply Forall_app. split; [by eapply since_trace_dom | done].
Qed.

(** The object literal that merges a result into the environment. *)
Lemma merge_alloc_since h0 h env r l h' :
  h0 ⊆ h → EnvStore.merge_alloc env r h = (l, h') →
  h ⊆ h' ∧ h0 ⊆ h' ∧ EnvStore.since h0 h' (EnvStore.Ref l)
  ∧ EnvStore.deref h' (EnvStore.Ref l)
    = VObject (merge (EnvStore.deref h env) (EnvStore.deref h r)).
Proof.
  intros Hsub (Hext & Hfresh & Hin & Hl)%alloc_grows.
  split_and!; [done | by etrans | | simpl; by rewrite Hl].
  split; [| done]. intros Hl0. apply Hfresh.
  by eapply subseteq_dom_elem.
Qed.

(** A confined pass, handed an object made since [h0], leaves the objects
    of [h0] as they were. *)
Lemma confined_call h0 h q x :
  EnvStore.confined q → h0 ⊆ h → EnvStore.since h0 h x →
  h0 ⊆ (q x h).2 ∧ ∀ l, l ∈ dom h → l ∈ dom (q x h).2.
Proof.
  intros Hq Hsub Hx. destruct (Hq x h) as [Hdom Hkeep].
  split; [| done]. apply map_subseteq_spec. intros l m Hl.
  apply Hkeep; [by eapply lookup_weaken |].
  intros ->. destruct Hx as [Hnew _]. apply Hnew, elem_of_dom. eauto.
Qed.

Lemma reduce_step_grown h0 j (p : EnvStore.ref_promise) next :
  EnvStore.confined next →
  EnvStore.grown h0 p →
  EnvStore.grown h0 (EnvStore.reduce_step code (EnvStore.values_adopt code) j p next)
  ∧ ∀ l, l ∈ dom p.2 → l ∈ dom (EnvStore.reduce_step code (EnvStore.values_adopt code) j p next).2.
Proof.
  intros Hnext Hp. unfold EnvStore.reduce_step.
  apply promise_then_grown; [done |]. intros x Hx.
  destruct Hp as (Hsub & Hs & _). rewrite Hx in Hs. cbn in Hs.
  set (h := p.2) in *. clearbody h. clear Hx.
  destruct (confined_call h0 h next x Hnext Hsub Hs) as [Hsub1 Hdom1].
  destruct (next x h) as [c h1]. cbn [snd] in *.
  pose proof (since_dom h0 h h1 x Hdom1 Hs) as Hs1.
  destruct c as [maybe | e].
  - destruct (promise_then_grown h0
                (EnvStore.promise_resolve code (EnvStore.values_adopt code) (EnvStore.Val maybe) h1)
                (λ r h2, let '(l, h') := EnvStore.merge_alloc x r h2 in
                         EnvStore.promise_resolve code (EnvStore.values_adopt code) (EnvStore.Ref l) h'))
      as (Hg & Hdom).
    { by apply promise_resolve_grown. }
    { intros r _.
      change (EnvStore.promise_resolve code (EnvStore.values_adopt code) (EnvStore.Val maybe) h1).2 with h1.
      destruct (EnvStore.merge_alloc x r h1) as [l h'] eqn:Halloc.
      destruct (merge_alloc_since h0 h1 x r l h' Hsub1 Halloc)
        as (Hext & Hsub' & Hl & _).
      split; [by apply promise_resolve_grown |].
      intros l' Hl'. rewrite promise_resolve_store.
      exact (subseteq_dom_elem h1 h' l' Hext Hl'). }
    change (EnvStore.promise_resolve code (EnvStore.values_adopt code) (EnvStore.Val maybe) h1).2 with h1 in Hdom.
    destruct (EnvStore.promise_then _ _) as [[s t] h'].
    destruct Hg as (Hsub' & Hs' & Ht').
    unfold EnvStore.grown in *. cbn [fst snd] in *.
    split_and!; try done; [| by auto].
    constructor; [| done]. eapply since_dom; [| exact Hs1]. done.
  - unfold EnvStore.grown. cbn [fst snd].
    split_and!; try done. constructor; [done | constructor].
Qed.

Lemma reduce_passes_grown h0 ps :
  Forall EnvStore.confined ps →
  ∀ j (p : EnvStore.ref_promise),
    EnvStore.grown h0 p →
    EnvStore.grown h0 (EnvStore.reduce_passes code (EnvStore.values_adopt code) j ps p)
    ∧ ∀ l, l ∈ dom p.2 → l ∈ dom (EnvStore.reduce_passes code (EnvStore.values_adopt code) j ps p).2.
Proof.
  induction 1 as [| next rest Hnext _ IH]; intros j p Hp; [done |].
  cbn [EnvStore.reduce_passes].
  destruct (reduce_step_grown h0 j p next Hnext Hp) as (Hg & Hdom).
  destruct (IH (S j) _ Hg) as (Hg' & Hdom').
  split; [done | by auto].
Qed.

Lemma switch_grown h0 h i env out remaining :
  Forall EnvStore.confined remaining →
  h0 ⊆ h → EnvStore.since h0 h (EnvStore.Ref env) →
  EnvStore.grown h0 (EnvStore.switch code (EnvStore.values_adopt code) i env out remaining h)
  ∧ ∀ l, l ∈ dom h → l ∈ dom (EnvStore.switch code (EnvStore.values_adopt code) i env out remaining h).2.
Proof.
  intros Hrem Hsub Henv. unfold EnvStore.switch.
  apply (promise_then_grown h0
           (EnvStore.promise_resolve code (EnvStore.values_adopt code) (EnvStore.Val out) h));
    [by apply promise_resolve_grown |].
  intros r _.
  change (EnvStore.promise_resolve code (EnvStore.values_adopt code) (EnvStore.Val out) h).2 with h.
  destruct (EnvStore.merge_alloc (EnvStore.Ref env) r h) as [env' h'] eqn:Halloc.
  destruct (merge_alloc_since h0 h _ r env' h' Hsub Halloc)
    as (Hext & Hsub' & Henv' & _).
  pose proof (promise_resolve_grown h0 h' (EnvStore.Ref env') Hsub' Henv') as Hg.
  destruct (reduce_passes_grown h0 remaining Hrem (S i) _ Hg) as (Hg2 & Hdom2).
  rewrite promise_resolve_store in Hdom2.
  destruct (promise_then_grown h0
              (EnvStore.reduce_passes code (EnvStore.values_adopt code) (S i) remaining
                 (EnvStore.promise_resolve code (EnvStore.values_adopt code) (EnvStore.Ref env') h'))
              (λ finalEnv h, EnvStore.promise_resolve code (EnvStore.values_adopt code) finalEnv h) Hg2)
    as (Hg3 & Hdom3).
  { intros x Hx. destruct Hg2 as (Hsub2 & Hs2 & _). rewrite Hx in Hs2.
    split; [by apply promise_resolve_grown |].
    intros l Hl. by rewrite promise_resolve_store. }
  split; [done |]. intros l Hl.
  apply Hdom3, Hdom2. exact (subseteq_dom_elem h h' l Hext Hl).
Qed.

Lemma run_from_grown h0 passes :
  Forall EnvStore.confined passes →
  ∀ i env log h,
    h0 ⊆ h → EnvStore.since h0 h (EnvStore.Ref env) →
    EnvStore.since_trace h0 h log →
    h0 ⊆ (EnvStore.run_from code (EnvStore.values_adopt code) i passes env log h).2
    ∧ EnvStore.since_result h0 (EnvStore.run_from code (EnvStore.values_adopt code) i passes env log h).2
        (EnvStore.run_from code (EnvStore.values_adopt code) i passes env log h).1.1
    ∧ EnvStore.since_trace h0 (EnvStore.run_from code (EnvStore.values_adopt code) i passes env log h).2
        (EnvStore.run_from code (EnvStore.values_adopt code) i passes env log h).1.2.
Proof.
  induction 1 as [| p remaining Hp Hrem IH]; intros i env log h Hsub Henv Hlog.
  { by split_and!. }
  cbn [EnvStore.run_from].
  destruct (confined_call h0 h p _ Hp Hsub Henv) as [Hsub1 Hdom1].
  destruct (p (EnvStore.Ref env) h) as [c h1]. cbn [snd] in *.
  pose proof (since_dom h0 h h1 _ Hdom1 Henv) as Henv1.
  assert (EnvStore.since_trace h0 h1 (log ++ [(i, EnvStore.Ref env)])) as Hlog'.
  { apply Forall_app. split; [by eapply since_trace_dom |].
    constructor; [exact Henv1 | constructor]. }
  destruct c as [out | e]; [| by split_and!].
  destruct (isThenable out).
  - destruct (switch_grown h0 h1 i env out remaining Hrem Hsub1 Henv1)
      as ((Hsub' & Hs & Ht) & Hdom).
    destruct (EnvStore.switch code (EnvStore.values_adopt code) i env out remaining h1) as [[s t] h'].
    cbn [fst snd] in *. split_and!; [done | done |].
    apply Forall_app. split; [by eapply since_trace_dom | done].
  - destruct (EnvStore.merge_alloc (EnvStore.Ref env) (EnvStore.Val out) h1)
      as [env' h'] eqn:Halloc.
    destruct (merge_alloc_since h0 h1 _ _ env' h' Hsub1 Halloc)
      as (Hext & Hsub' & Henv' & _).
    apply IH; [done | done |].
    eapply since_trace_dom; [| exact Hlog'].
    intros l Hl. exact (subseteq_dom_elem h1 h' l Hext Hl).
Qed.

Lemma run_grown passes input h :
  Forall EnvStore.confined passes →
  h ⊆ (EnvStore.run code (EnvStore.values_adopt code) passes input h).2
  ∧ EnvStore.since_result h (EnvStore.run code (EnvStore.values_adopt code) passes input h).2
      (EnvStore.run code (EnvStore.values_adopt code) passes input h).1.1
  ∧ EnvStore.since_trace h (EnvStore.run code (EnvStore.values_adopt code) passes input h).2
      (EnvStore.run code (EnvStore.values_adopt code) passes input h).1.2.
Proof.
  intros Hpasses. unfold EnvStore.run, EnvStore.initial_alloc.
  destruct (alloc _ h) as [env h1] eqn:Halloc.
  apply alloc_grows in Halloc as (Hext & Hfresh & Hin & Henv).
  apply run_from_grown; [done | done | done | constructor].
Qed.

Lemma since_run_locs h0 (r : EnvStore.ref_result * EnvStore.ref_trace * EnvStore.store) l :
  EnvStore.since_result h0 r.2 r.1.1 →
  EnvStore.since_trace h0 r.2 r.1.2 →
  l ∈ EnvStore.run_locs r → (l ∉ dom h0) ∧ l ∈ dom r.2.
Proof.
  destruct r as [[res t] h]. unfold EnvStore.run_locs. cbn [fst snd].
  intros Hres Ht [Hl | Hl]%elem_of_app.
  - destruct res as [env | e | [[l' | v] | e |]]; simpl in Hl;
      try (by apply elem_of_nil in Hl);
      apply list_elem_of_singleton in Hl as ->; exact Hres.
  - unfold EnvStore.trace_locs in Hl.
    apply list_elem_of_bind in Hl as ([j x] & Hl & Hc).
    eapply Forall_forall in Ht; [| exact Hc].
    destruct x as [l' | v]; simpl in Hl; [| by apply elem_of_nil in Hl].
    apply list_elem_of_singleton in Hl as ->. exact Ht.
Qed.

End env_store.

(** ** The store of environment objects: runs of passes that only read *)

Section env_store_pure.
Context (code : fid → closure).

Lemma pure_confined p : EnvStore.confined (EnvStore.pure p).
Proof. intros x h. by split. Qed.

Lemma pure_all_confined (ps : list pass) :
  Forall EnvStore.confined (EnvStore.pure <$> ps).
Proof. apply Forall_fmap, Forall_true. intros p. apply pure_confined. Qed.

Lemma deref_mono h0 h h' x :
  h ⊆ h' → EnvStore.since h0 h x → EnvStore.deref h' x = EnvStore.deref h x.
Proof.
  intros Hsub. destruct x as [l | v]; [| done].
  intros [_ Hin]. apply elem_of_dom in Hin as [m Hm]. simpl.
  by rewrite (lookup_total_correct _ _ _ Hm),
             (lookup_total_correct _ _ _ (lookup_weaken _ _ _ _ Hm Hsub)).
Qed.

Lemma erase_trace_mono h0 h h' t :
  h ⊆ h' → EnvStore.since_trace h0 h t →
  EnvStore.erase_trace h' t = EnvStore.erase_trace h t.
Proof.
  intros Hsub Ht. unfold EnvStore.erase_trace.
  apply Forall_fmap_ext_1. eapply Forall_impl; [exact Ht |].
  intros [j x] Hx. unfold prod_map. simpl. f_equal. by eapply deref_mono.
Qed.

Lemma erase_trace_snoc h t j x :
  EnvStore.erase_trace h (t ++ [(j, x)])
  = EnvStore.erase_trace h t ++ [(j, EnvStore.deref h x)].
Proof. unfold EnvStore.erase_trace. by rewrite fmap_app. Qed.

Lemma erase_of_settlement h s :
  EnvStore.erase_settlement h (EnvStore.of_settlement s) = s.
Proof. by destruct s. Qed.

Lemma promise_resolve_erase h x :
  EnvStore.erase_promise (EnvStore.promise_resolve code (EnvStore.values_adopt code) x h)
  = promise_resolve code (EnvStore.deref h x).
Proof.
  rewrite promise_resolve_values.
  unfold EnvStore.erase_promise, promise_resolve.
  cbn [fst snd]. f_equal. destruct x as [l | v]; simpl.
  - destruct (default VUndefined ((h !!! l) !! "then")); simpl;
      auto using erase_of_settlement.
  - apply erase_of_settlement.
Qed.

(** [then]: if the callback, run in the store of the promise, behaves
    like its counterpart on values, so does the promise it makes. *)
Lemma promise_then_erase h0 (p : EnvStore.ref_promise) cb cb' :
  EnvStore.grown h0 p →
  (∀ x, p.1.1 = EnvStore.RFulfilled x →
        p.2 ⊆ (cb x p.2).2
        ∧ EnvStore.erase_promise (cb x p.2) = cb' (EnvStore.deref p.2 x)) →
  p.2 ⊆ (EnvStore.promise_then p cb).2
  ∧ EnvStore.erase_promise (EnvStore.promise_then p cb)
    = promise_then (EnvStore.erase_promise p) cb'.
Proof.
  destruct p as [[[x | e |] t] h]; cbn [fst snd EnvStore.promise_then];
    intros (Hsub & Hs & Ht) Hcb; [| by split ..].
  destruct (Hcb x eq_refl) as (Hext & Herase).
  destruct (cb x h) as [[s' t'] h'].
  unfold EnvStore.erase_promise in *. cbn [fst snd] in *.
  split; [done |].
  cbn [promise_then EnvStore.erase_settlement]. rewrite <- Herase.
  unfold EnvStore.erase_trace at 1. rewrite fmap_app.
  fold (EnvStore.erase_trace h' t) (EnvStore.erase_trace h' t').
  by rewrite (erase_trace_mono h0 h h' t Hext Ht).
Qed.

Lemma reduce_step_erase h0 j (p : EnvStore.ref_promise) (next : pass) :
  EnvStore.grown h0 p →
  p.2 ⊆ (EnvStore.reduce_step code (EnvStore.values_adopt code) j p (EnvStore.pure next)).2
  ∧ EnvStore.erase_promise (EnvStore.reduce_step code (EnvStore.values_adopt code) j p (EnvStore.pure next))
    = reduce_step code j (EnvStore.erase_promise p) next.
Proof.
  intros Hp. unfold EnvStore.reduce_step, reduce_step.
  apply (promise_then_erase h0); [done |]. intros x Hx.
  destruct Hp as (Hsub & Hs & _). rewrite Hx in Hs. cbn in Hs.
  set (h := p.2) in *. clearbody h. clear Hx.
  unfold EnvStore.pure.
  destruct (next (EnvStore.deref h x)) as [maybe | e]; [| done].
  destruct (promise_then_erase h0
              (EnvStore.promise_resolve code (EnvStore.values_adopt code) (EnvStore.Val maybe) h)
              (λ r h1, let '(l, h') := EnvStore.merge_alloc x r h1 in
                       EnvStore.promise_resolve code (EnvStore.values_adopt code) (EnvStore.Ref l) h')
              (λ r, promise_resolve code
                      (VObject (merge (EnvStore.deref h x) r))))
    as (Hext & Herase).
  { by apply promise_resolve_grown. }
  { intros r _.
    change (EnvStore.promise_resolve code (EnvStore.values_adopt code) (EnvStore.Val maybe) h).2 with h.
    destruct (EnvStore.merge_alloc x r h) as [l h'] eqn:Halloc.
    destruct (merge_alloc_since h0 h x r l h' Hsub Halloc)
      as (Hext & _ & _ & Hderef).
    split; [by rewrite promise_resolve_store |].
    by rewrite promise_resolve_erase, Hderef. }
  rewrite promise_resolve_erase in Herase.
  change (EnvStore.promise_resolve code (EnvStore.values_adopt code) (EnvStore.Val maybe) h).2 with h in Hext.
  change (EnvStore.deref h (EnvStore.Val maybe)) with maybe in Herase.
  destruct (EnvStore.promise_then _ _) as [[s t] h'].
  destruct (promise_then _ _) as [s' t'].
  unfold EnvStore.erase_promise in *. cbn [fst snd] in *.
  injection Herase as <- <-. split; [done |].
  unfold EnvStore.erase_trace. rewrite fmap_cons. unfold prod_map at 1.
  cbn [fst snd]. by rewrite (deref_mono h0 h h' x Hext Hs).
Qed.

Lemma reduce_passes_erase h0 (ps : list pass) :
  ∀ j (p : EnvStore.ref_promise),
    EnvStore.grown h0 p →
    p.2 ⊆ (EnvStore.reduce_passes code (EnvStore.values_adopt code) j (EnvStore.pure <$> ps) p).2
    ∧ EnvStore.erase_promise
        (EnvStore.reduce_passes code (EnvStore.values_adopt code) j (EnvStore.pure <$> ps) p)
      = reduce_passes code j ps (EnvStore.erase_promise p).
Proof.
  induction ps as [| next rest IH]; intros j p Hp; [done |].
  cbn [EnvStore.reduce_passes reduce_passes fmap list_fmap].
  destruct (reduce_step_erase h0 j p next Hp) as (Hext & Herase).
  destruct (reduce_step_grown code h0 j p _ (pure_confined next) Hp) as (Hg & _).
  destruct (IH (S j) _ Hg) as (Hext' & Herase').
  split; [by etrans | by rewrite Herase', Herase].
Qed.

Lemma switch_erase h0 h i env out (remaining : list pass) :
  h0 ⊆ h → EnvStore.since h0 h (EnvStore.Ref env) →
  h ⊆ (EnvStore.switch code (EnvStore.values_adopt code) i env out (EnvStore.pure <$> remaining) h).2
  ∧ EnvStore.erase_promise
      (EnvStore.switch code (EnvStore.values_adopt code) i env out (EnvStore.pure <$> remaining) h)
    = switch code i (h !!! env) out remaining.
Proof.
  intros Hsub Henv. unfold EnvStore.switch, switch.
  pose proof (promise_resolve_erase h (EnvStore.Val out)) as Hres.
  change (EnvStore.deref h (EnvStore.Val out)) with out in Hres.
  rewrite <- Hres.
  apply (promise_then_erase h0
           (EnvStore.promise_resolve code (EnvStore.values_adopt code) (EnvStore.Val out) h));
    [by apply promise_resolve_grown |].
  intros r _.
  change (EnvStore.promise_resolve code (EnvStore.values_adopt code) (EnvStore.Val out) h).2 with h.
  destruct (EnvStore.merge_alloc (EnvStore.Ref env) r h) as [env' h'] eqn:Halloc.
  destruct (merge_alloc_since h0 h _ r env' h' Hsub Halloc)
    as (Hext & Hsub' & Henv' & Hderef).
  pose proof (promise_resolve_grown code h0 h' (EnvStore.Ref env') Hsub' Henv') as Hg.
  destruct (reduce_passes_erase h0 remaining (S i) _ Hg) as (Hext2 & Herase2).
  destruct (reduce_passes_grown code h0 _ (pure_all_confined remaining) (S i) _ Hg)
    as (Hg2 & _).
  rewrite promise_resolve_store in Hext2.
  rewrite promise_resolve_erase, Hderef in Herase2.
  cbn [EnvStore.deref] in Herase2. cbn zeta. rewrite <- Herase2.
  destruct (promise_then_erase h0
              (EnvStore.reduce_passes code (EnvStore.values_adopt code) (S i) (EnvStore.pure <$> remaining)
                 (EnvStore.promise_resolve code (EnvStore.values_adopt code) (EnvStore.Ref env') h'))
              (λ finalEnv h, EnvStore.promise_resolve code (EnvStore.values_adopt code) finalEnv h)
              (λ finalEnv, promise_resolve code finalEnv) Hg2)
    as (Hext3 & Herase3).
  { intros x Hx.
    split; [by rewrite promise_resolve_store | apply promise_resolve_erase]. }
  split; [| done]. etrans; [exact Hext |]. by etrans.
Qed.

Lemma run_from_erase h0 (passes : list pass) :
  ∀ i env log h,
    h0 ⊆ h → EnvStore.since h0 h (EnvStore.Ref env) →
    EnvStore.since_trace h0 h log →
    EnvStore.erase_run
      (EnvStore.run_from code (EnvStore.values_adopt code) i (EnvStore.pure <$> passes) env log h)
    = run_from code i passes (h !!! env) (EnvStore.erase_trace h log).
Proof.
  induction passes as [| p remaining IH]; intros i env log h Hsub Henv Hlog.
  { done. }
  assert (EnvStore.since_trace h0 h (log ++ [(i, EnvStore.Ref env)])) as Hlog'.
  { apply Forall_app. split; [done |].
    constructor; [exact Henv | constructor]. }
  cbn [EnvStore.run_from run_from fmap list_fmap].
  unfold EnvStore.pure at 1. cbn [EnvStore.deref].
  destruct (p (VObject (h !!! env))) as [out | e].
  - destruct (isThenable out).
    + destruct (switch_erase h0 h i env out remaining Hsub Henv)
        as (Hext & Herase).
      destruct (EnvStore.switch code (EnvStore.values_adopt code) i env out _ h) as [[s t] h'].
      destruct (switch code i (h !!! env) out remaining) as [s' t'].
      unfold EnvStore.erase_promise, EnvStore.erase_run in *.
      cbn [fst snd] in *. injection Herase as <- <-.
      cbn [EnvStore.erase_result]. f_equal.
      unfold EnvStore.erase_trace at 1. rewrite fmap_app.
      fold (EnvStore.erase_trace h' (log ++ [(i, EnvStore.Ref env)]))
           (EnvStore.erase_trace h' t).
      by rewrite (erase_trace_mono h0 h h' _ Hext Hlog'), erase_trace_snoc.
    + destruct (EnvStore.merge_alloc (EnvStore.Ref env) (EnvStore.Val out) h)
        as [env' h'] eqn:Halloc.
      destruct (merge_alloc_since h0 h _ _ env' h' Hsub Halloc)
        as (Hext & Hsub' & Henv' & Hderef).
      rewrite (IH (S i) env' (log ++ [(i, EnvStore.Ref env)]) h' Hsub' Henv').
      * injection Hderef as ->.
        by rewrite (erase_trace_mono h0 h h' _ Hext Hlog'), erase_trace_snoc.
      * eapply since_trace_dom; [| exact Hlog'].
        intros l Hl. exact (subseteq_dom_elem h h' l Hext Hl).
  - unfold EnvStore.erase_run. cbn [fst snd EnvStore.erase_result].
    by rewrite erase_trace_snoc.
Qed.

(** On values, a run of passes that only read is [run]. *)
Lemma run_erase (passes : list pass) input h :
  EnvStore.erase_run (EnvStore.run code (EnvStore.values_adopt code) (EnvStore.pure <$> passes) input h)
  = run code passes (EnvStore.deref h input).
Proof.
  unfold EnvStore.run, EnvStore.initial_alloc, run.
  destruct (alloc _ h) as [env h1] eqn:Halloc.
  apply alloc_grows in Halloc as (Hext & Hfresh & Hin & Henv).
  rewrite (run_from_erase h passes 0 env [] h1 Hext); [| done | constructor].
  by rewrite Henv.
Qed.

End env_store_pure.

(** ** The store of environment objects: environments that are not
    thenables

    As long as no environment exposes a callable [then], promise
    resolution never calls one, and the run does not depend on what such
    functions do. *)

Lemma settle_plain code adopt (h : EnvStore.store) l :
  isThenable (VObject (h !!! l)) = false →
  EnvStore.settle code adopt h (EnvStore.Ref l)
  = (EnvStore.RFulfilled (EnvStore.Ref l), h).
Proof.
  intros Hl. rewrite isThenable_object in Hl. simpl in *.
  destruct (default VUndefined ((h !!! l) !! "then")); try done.
Qed.

Lemma promise_resolve_plain code adopt (h : EnvStore.store) l :
  isThenable (VObject (h !!! l)) = false →
  EnvStore.promise_resolve code adopt (EnvStore.Ref l) h
  = (EnvStore.RFulfilled (EnvStore.Ref l), [], h).
Proof.
  intros Hl. unfold EnvStore.promise_resolve. by rewrite settle_plain.
Qed.

Lemma promise_resolve_val code adopt (h : EnvStore.store) v :
  EnvStore.promise_resolve code adopt (EnvStore.Val v) h
  = (EnvStore.of_settlement (settle code v), [], h).
Proof. reflexivity. Qed.

Lemma pure_keeps_plain p : EnvStore.keeps_plain (EnvStore.pure p).
Proof. by intros l h Hl. Qed.

Lemma pure_all_keep_plain (ps : list pass) :
  Forall EnvStore.keeps_plain (EnvStore.pure <$> ps).
Proof. apply Forall_fmap, Forall_true. intros p. apply pure_keeps_plain. Qed.

Section env_store_plain.
Context (code : fid → closure) (adopt : EnvStore.adoption).
Hypothesis Hflat : flat_table code.

Lemma merge_alloc_plain (h : EnvStore.store) l r l' h' :
  isThenable (VObject (h !!! l)) = false →
  isThenable r = false →
  EnvStore.merge_alloc (EnvStore.Ref l) (EnvStore.Val r) h = (l', h') →
  isThenable (VObject (h' !!! l')) = false.
Proof.
  intros Hl Hr (_ & _ & _ & ->)%alloc_grows. by apply merge_not_thenable.
Qed.

Lemma reduce_step_plain j (p : EnvStore.ref_promise) next :
  EnvStore.keeps_plain next →
  EnvStore.plain_promise p →
  EnvStore.reduce_step code adopt j p next
  = EnvStore.reduce_step code (EnvStore.values_adopt code) j p next
  ∧ EnvStore.plain_promise (EnvStore.reduce_step code adopt j p next).
Proof using Hflat.
  intros Hnext Hp. destruct p as [[[x | e |] t] h];
    unfold EnvStore.reduce_step; cbn [EnvStore.promise_then];
    [| by split; [| intros x [=]] ..].
  destruct (Hp x eq_refl) as (l & -> & Hl). cbn [snd] in Hl.
  pose proof (Hnext l h Hl) as Hl1.
  destruct (next (EnvStore.Ref l) h) as [c h1]. cbn [snd] in Hl1.
  destruct c as [maybe | e]; [| by split; [| intros x [=]]].
  rewrite !promise_resolve_val.
  destruct (settle code maybe) as [r | e |] eqn:Hs;
    cbn [EnvStore.of_settlement EnvStore.promise_then];
    [| by split; [| intros x [=]] ..].
  destruct (EnvStore.merge_alloc (EnvStore.Ref l) (EnvStore.Val r) h1)
    as [l' h'] eqn:Halloc.
  assert (isThenable (VObject (h' !!! l')) = false) as Hl'.
  { eapply merge_alloc_plain; [exact Hl1 | | exact Halloc].
    by eapply settle_flat. }
  rewrite !promise_resolve_plain by done.
  split; [done |]. intros x [= <-]. eauto.
Qed.

Lemma reduce_passes_plain ps :
  Forall EnvStore.keeps_plain ps →
  ∀ j (p : EnvStore.ref_promise),
    EnvStore.plain_promise p →
    EnvStore.reduce_passes code adopt j ps p
    = EnvStore.reduce_passes code (EnvStore.values_adopt code) j ps p
    ∧ EnvStore.plain_promise (EnvStore.reduce_passes code adopt j ps p).
Proof using Hflat.
  induction 1 as [| next rest Hnext _ IH]; intros j p Hp; [done |].
  cbn [EnvStore.reduce_passes].
  destruct (reduce_step_plain j p next Hnext Hp) as [Heq Hp'].
  destruct (IH (S j) _ Hp') as [Heq' Hp''].
  split; [| done]. by rewrite Heq', Heq.
Qed.

Lemma switch_plain i env out remaining (h : EnvStore.store) :
  Forall EnvStore.keeps_plain remaining →
  isThenable (VObject (h !!! env)) = false →
  EnvStore.switch code adopt i env out remaining h
  = EnvStore.switch code (EnvStore.values_adopt code) i env out remaining h.
Proof using Hflat.
  intros Hrem Henv. unfold EnvStore.switch. rewrite !promise_resolve_val.
  destruct (settle code out) as [r | e |] eqn:Hs;
    cbn [EnvStore.of_settlement EnvStore.promise_then]; [| done ..].
  destruct (EnvStore.merge_alloc (EnvStore.Ref env) (EnvStore.Val r) h)
    as [env' h'] eqn:Halloc.
  assert (isThenable (VObject (h' !!! env')) = false) as Henv'.
  { eapply merge_alloc_plain; [exact Henv | | exact Halloc].
    by eapply settle_flat. }
  rewrite !promise_resolve_plain by done.
  destruct (reduce_passes_plain remaining Hrem (S i)
              (EnvStore.RFulfilled (EnvStore.Ref env'), [], h'))
    as [Heq Hp].
  { intros x [= <-]. eauto. }
  rewrite <- Heq.
  destruct (EnvStore.reduce_passes code adopt (S i) remaining _)
    as [[[x | e |] t] h2]; cbn [EnvStore.promise_then]; [| done ..].
  destruct (Hp x eq_refl) as (l & -> & Hl). cbn [snd] in Hl.
  by rewrite !promise_resolve_plain.
Qed.

Lemma run_from_plain passes :
  Forall EnvStore.keeps_plain passes →
  ∀ i env log (h : EnvStore.store),
    isThenable (VObject (h !!! env)) = false →
    EnvStore.run_from code adopt i passes env log h
    = EnvStore.run_from code (EnvStore.values_adopt code) i passes env log h.
Proof using Hflat.
  induction 1 as [| p remaining Hp Hrem IH]; intros i env log h Henv; [done |].
  cbn [EnvStore.run_from].
  pose proof (Hp env h Henv) as Henv1.
  destruct (p (EnvStore.Ref env) h) as [c h1]. cbn [snd] in Henv1.
  destruct c as [out | e]; [| done].
  destruct (isThenable out) eqn:Hout.
  - by rewrite switch_plain.
  - destruct (EnvStore.merge_alloc (EnvStore.Ref env) (EnvStore.Val out) h1)
      as [env' h'] eqn:Halloc.
    apply IH. by eapply merge_alloc_plain.
Qed.

(** A run in which no environment is a thenable is the run on values. *)
Lemma run_plain passes input (h : EnvStore.store) :
  Forall EnvStore.keeps_plain passes →
  isThenable (EnvStore.deref h input) = false →
  EnvStore.run code adopt passes input h
  = EnvStore.run code (EnvStore.values_adopt code) passes input h.
Proof using Hflat.
  intros Hpasses Hinput. unfold EnvStore.run, EnvStore.initial_alloc.
  destruct (alloc _ h) as [env h1] eqn:Halloc.
  apply alloc_grows in Halloc as (_ & _ & _ & Henv).
  apply run_from_plain; [done |]. rewrite Henv.
  by apply initial_env_not_thenable.
Qed.

Lemma run_erase_plain (ps : list pass) input (h : EnvStore.store) :
  isThenable (EnvStore.deref h input) = false →
  EnvStore.erase_run (EnvStore.run code adopt (EnvStore.pure <$> ps) input h)
  = run code ps (EnvStore.deref h input).
Proof using Hflat.
  intros Hinput.
  rewrite run_plain by auto using pure_all_keep_plain.
  apply run_erase.
Qed.

End env_store_plain.

(** Passes that only read and return immediate values: the loop never
    resolves a promise. *)
Lemma run_from_pure_immediate code adopt (ps : list pass) env0 env' :
  immediate_run ps env0 env' →
  ∀ i env log (h : EnvStore.store),
    h !!! env = env0 →
    ∃ l t h',
      EnvStore.run_from code adopt i (EnvStore.pure <$> ps) env log h
      = (EnvStore.RReturned l, t, h')
      ∧ h' !!! l = env'.
Proof.
  induction 1 as [env0 | p ps env0 out env' Hp Hout _ IH];
    intros i env log h Henv.
  { exists env, log, h. by split. }
  cbn [EnvStore.run_from fmap list_fmap].
  change (EnvStore.pure p (EnvStore.Ref env) h) with (p (VObject (h !!! env)), h).
  rewrite Henv, Hp, Hout.
  destruct (EnvStore.merge_alloc (EnvStore.Ref env) (EnvStore.Val out) h)
    as [env1 h1] eqn:Halloc.
  apply IH.
  apply alloc_grows in Halloc as (_ & _ & _ & ->).
  cbn [EnvStore.deref]. by rewrite Henv.
Qed.

(** ** The sample tables *)

Lemma resolved_code_flat : flat_table resolved_code.
Proof.
  intros f this v. destruct f as [| [| [| [| f]]]]; simpl; try discriminate;
    intros [= <-]; reflexivity.
Qed.

Lemma touch_confined : EnvStore.confined EnvStore.touch.
Proof.
  intros x h. destruct x as [l | v]; simpl; [| by split].
  split.
  - intros l' Hl'. apply elem_of_dom. destruct (decide (l = l')) as [-> | Hne].
    + rewrite lookup_insert_eq. eauto.
    + rewrite lookup_insert_ne by done. by apply elem_of_dom.
  - intros l' m Hl' Hne. rewrite lookup_insert_ne; [done | congruence].
Qed.

(** ** The tests of the repository, run on the model *)

Example test_merges_passes :
  result sample_code (wrapper sample_code <$> [VFunction 0 ∅; VFunction 1 ∅])
         (VObject {[ "input" := VNum 1 ]})
  = Returned (<["log" := VStr "1 => 2"]>
                (<["output" := VNum 2]> {[ "input" := VNum 1 ]})).
Proof. vm_compute. reflexivity. Qed.

Example test_switches_on_thenable :
  result sample_code (wrapper sample_code <$> [VFunction 3 ∅; VFunction 1 ∅])
         (VObject {[ "input" := VNum 5 ]})
  = Handle (Fulfilled (VObject
      (<["log" := VStr "5 => 15"]>
         (<["output" := VNum 15]> {[ "input" := VNum 5 ]})))).
Proof. vm_compute. reflexivity. Qed.

Example test_run_objects :
  result sample_code
         (wrapper sample_code <$>
            [VObject {[ "run" := VFunction 0 ∅ ]}; VObject {[ "run" := VFunction 1 ∅ ]}])
         (VObject {[ "input" := VNum 4 ]})
  = Returned (<["log" := VStr "4 => 5"]>
                (<["output" := VNum 5]> {[ "input" := VNum 4 ]})).
Proof. vm_compute. reflexivity. Qed.

Example test_void_pass :
  result sample_code (wrapper sample_code <$> [VFunction 9 ∅])
         (VObject {[ "a" := VNum 1 ]})
  = Returned {[ "a" := VNum 1 ]}.
Proof. vm_compute. reflexivity. Qed.

Example test_no_argument :
  result sample_code (wrapper sample_code <$> [VFunction 9 ∅]) VUndefined
  = Returned ∅.
Proof. vm_compute. reflexivity. Qed.

(** Beyond the tests: a deferred result that is rejected, and one that
    never settles; in both cases the pass after it is not called. *)
Example rejected_thenable :
  run sample_code (wrapper sample_code <$> [VFunction 7 ∅; VFunction 0 ∅])
      (VObject {[ "input" := VNum 1 ]})
  = (Handle (Rejected (Thrown (VStr "late"))),
     [(0, VObject {[ "input" := VNum 1 ]})]).
Proof. vm_compute. reflexivity. Qed.

Example pending_thenable :
  run sample_code (wrapper sample_code <$> [VFunction 8 ∅; VFunction 0 ∅])
      (VObject {[ "input" := VNum 1 ]})
  = (Handle Pending, [(0, VObject {[ "input" := VNum 1 ]})]).
Proof. vm_compute. reflexivity. Qed.

(** A builder used after finalizing: the first runner keeps its one
    pass, the second one has the pass registered in between. *)
Example builder_reuse :
  let '(b, h0) := Builder.pipeline ∅ in
  let '(_, h1) := Builder.addPass sample_code b (VFunction 0 ∅) h0 in
  let '(r, h2) := Builder.build b h1 in
  let '(_, h3) := Builder.addPass sample_code b (VFunction 5 ∅) h2 in
  let '(r', h4) := Builder.build b h3 in
  (Builder.call_runner sample_code r (VObject {[ "input" := VNum 1 ]}) h4).1
  = Returned (<["output" := VNum 2]> {[ "input" := VNum 1 ]})
  ∧ (Builder.call_runner sample_code r' (VObject {[ "input" := VNum 1 ]}) h4).1
    = Raised (Thrown (VStr "boom")).
Proof. vm_compute. split; reflexivity. Qed.

(** A receiver-sensitive function, registered as itself and as the "run"
    of an object. *)
Example receiver_matters :
  result sample_code (wrapper sample_code <$> [VFunction 4 ∅]) (VObject ∅)
  = Returned {[ "self" := VStr "undefined" ]}
  ∧ result sample_code
      (wrapper sample_code <$> [VObject {[ "run" := VFunction 4 ∅ ]}]) (VObject ∅)
    = Returned {[ "self" := VStr "object" ]}.
Proof. vm_compute. split; reflexivity. Qed.

(** * The properties of the specification *)

(** C1 (merge order), as amended.  When every registered pass only reads
    the environment it is handed and returns an immediate mapping, the
    runner returns the initial input overlaid, in registration order, by
    these mappings: a field of the result has the value given by the last
    mapping that has it, the input counting as the first one. *)
Theorem merge_order code adopt (fns : list value) (input : EnvStore.ref)
    (h : gmap loc (gmap string value)) (ms : list (gmap string value)) :
  mapping_results (wrapper code <$> fns)
    (initial_env (EnvStore.deref h input)) ms →
  EnvStore.erase_result
    (EnvStore.run code adopt (EnvStore.pure <$> (wrapper code <$> fns)) input h).2
    (EnvStore.run code adopt (EnvStore.pure <$> (wrapper code <$> fns)) input h).1.1
  = Returned (overlay (initial_env (EnvStore.deref h input)) ms)
  ∧ ∀ k, overlay (initial_env (EnvStore.deref h input)) ms !! k
         = latest k (initial_env (EnvStore.deref h input) :: ms).
Proof.
  intros Hms. split; [| intros k; apply overlay_lookup].
  apply mapping_results_immediate in Hms.
  unfold EnvStore.run, EnvStore.initial_alloc.
  destruct (alloc _ h) as [env h1] eqn:Halloc.
  apply alloc_grows in Halloc as (_ & _ & _ & Henv).
  destruct (run_from_pure_immediate code adopt _ _ _ Hms 0 env [] h1 Henv)
    as (l & t & h' & -> & Hl).
  cbn [fst snd EnvStore.erase_result]. by rewrite Hl.
Qed.

Lemma merge_order_witness :
  EnvStore.erase_result
    (EnvStore.run sample_code (EnvStore.values_adopt sample_code)
       (EnvStore.pure <$> (wrapper sample_code <$> [VFunction 0 ∅; VFunction 1 ∅]))
       (EnvStore.Ref 0) {[ 0 := {[ "input" := VNum 1; "output" := VNum 0 ]} ]}).2
    (EnvStore.run sample_code (EnvStore.values_adopt sample_code)
       (EnvStore.pure <$> (wrapper sample_code <$> [VFunction 0 ∅; VFunction 1 ∅]))
       (EnvStore.Ref 0) {[ 0 := {[ "input" := VNum 1; "output" := VNum 0 ]} ]}).1.1
  = Returned (<["log" := VStr "1 => 2"]>
                (<["output" := VNum 2]> {[ "input" := VNum 1 ]})).
Proof.
  destruct (merge_order sample_code (EnvStore.values_adopt sample_code)
              [VFunction 0 ∅; VFunction 1 ∅] (EnvStore.Ref 0)
              {[ 0 := {[ "input" := VNum 1; "output" := VNum 0 ]} ]}
              [ {[ "output" := VNum 2 ]}; {[ "log" := VStr "1 => 2" ]} ])
    as [Hres _].
  - repeat (econstructor; [vm_compute; reflexivity | vm_compute; reflexivity |]).
    constructor.
  - rewrite Hres. vm_compute. reflexivity.
Defined.

(** C1 as stated fails for a pass that writes to the environment it is
    handed, which is the live object: with
    [env => { env.touched = true; return {} }] followed by
    [env => ({ output: env.input + 1 })], both passes return immediate
    mappings, and the environment returned has the field that the first
    pass wrote, which the input overlaid by the two mappings has not. *)
Lemma merge_order_counterexample :
  let passes := [EnvStore.mark;
                 EnvStore.pure (wrapper sample_code (VFunction 0 ∅))] in
  let h : gmap loc (gmap string value) := {[ 0 := {[ "input" := VNum 1 ]} ]} in
  let r := EnvStore.run sample_code (EnvStore.values_adopt sample_code)
             passes (EnvStore.Ref 0) h in
  (∀ x h', (EnvStore.mark x h').1 = Return (VObject ∅))
  ∧ wrapper sample_code (VFunction 0 ∅)
      (VObject (<["touched" := VBool true]> {[ "input" := VNum 1 ]}))
    = Return (VObject {[ "output" := VNum 2 ]})
  ∧ EnvStore.erase_trace r.2 r.1.2
    = [(0, VObject (<["touched" := VBool true]> {[ "input" := VNum 1 ]}));
       (1, VObject (<["touched" := VBool true]> {[ "input" := VNum 1 ]}))]
  ∧ EnvStore.erase_result r.2 r.1.1
    = Returned (<["output" := VNum 2]>
                  (<["touched" := VBool true]> {[ "input" := VNum 1 ]}))
  ∧ EnvStore.erase_result r.2 r.1.1
    ≠ Returned (overlay {[ "input" := VNum 1 ]} [ ∅; {[ "output" := VNum 2 ]} ]).
Proof.
  cbv zeta. split_and!.
  - by intros [l | v] h'.
  - vm_compute. reflexivity.
  - vm_compute. reflexivity.
  - vm_compute. reflexivity.
  - vm_compute. intros Heq. discriminate Heq.
Qed.

(** C2 (one-way switch): the code at the failing input.  The input has a
    callable "then"; the only pass returns a promise of [{ a: 1 }].  The
    environment merged through the pass is the input with field "a"
    added, and a pass returning [{ a: 1 }] immediately makes the runner
    return it; after the switch the chain is resolved with the
    environment object itself, which is then taken for a deferred value,
    and the handle is fulfilled with what its "then" produces. *)
Lemma one_way_switch_failing_input :
  let input := VObject {[ "then" := VFunction 2 ∅ ]} in
  let merged : gmap string value :=
    <["a" := VNum 1]> {[ "then" := VFunction 2 ∅ ]} in
  wrapper resolved_code (VFunction 0 ∅) (VObject (initial_env input))
  = Return (VObject {[ "then" := VFunction 1 ∅ ]})
  ∧ isThenable (VObject {[ "then" := VFunction 1 ∅ ]}) = true
  ∧ merged_through resolved_code [wrapper resolved_code (VFunction 0 ∅)]
      (initial_env input) merged
  ∧ result resolved_code [wrapper resolved_code (VFunction 0 ∅)] input
    = Handle (Fulfilled (VObject {[ "x" := VNum 1 ]}))
  ∧ VObject {[ "x" := VNum 1 ]} ≠ VObject merged
  ∧ result resolved_code [(λ _, Return (VObject {[ "a" := VNum 1 ]})) : pass] input
    = Returned merged.
Proof.
  cbv zeta. split_and!.
  - reflexivity.
  - reflexivity.
  - eapply (merged_cons _ _ _ _ (VObject {[ "then" := VFunction 1 ∅ ]})
              (VObject {[ "a" := VNum 1 ]})); [reflexivity | reflexivity |].
    vm_compute. constructor.
  - vm_compute. reflexivity.
  - vm_compute. intros Heq. discriminate Heq.
  - vm_compute. reflexivity.
Qed.

(** The same happens when the "then" comes from a pass that writes it to
    the environment: the input has none, the first pass installs one, the
    second returns a promise of [{ a: 1 }]. *)
Example switch_with_then_from_pass :
  let r := EnvStore.run resolved_code (EnvStore.values_adopt resolved_code)
             [EnvStore.install_then 2;
              EnvStore.pure (wrapper resolved_code (VFunction 0 ∅))]
             (EnvStore.Ref 0) {[ 0 := {[ "i" := VNum 0 ]} ]} in
  EnvStore.erase_result r.2 r.1.1
  = Handle (Fulfilled (VObject {[ "x" := VNum 1 ]})).
Proof. vm_compute. reflexivity. Qed.

(** C3 (pure synchronous path).  If no registered pass returns a deferred
    value during the invocation, the runner does not return a deferred
    handle; with every pass returning, it returns the final environment
    itself. *)
Theorem pure_synchronous_path code (fns : list value) (input : value) :
  (∀ pre p post env out,
     wrapper code <$> fns = pre ++ p :: post →
     immediate_run pre (initial_env input) env →
     p (VObject env) = Return out → isThenable out = false) →
  (∀ s, result code (wrapper code <$> fns) input ≠ Handle s)
  ∧ (∀ env', immediate_run (wrapper code <$> fns) (initial_env input) env' →
             result code (wrapper code <$> fns) input = Returned env').
Proof.
  intros Himm. split.
  - intros s. by apply run_from_no_handle.
  - intros env'. apply result_immediate.
Qed.

Lemma pure_synchronous_path_witness :
  (∀ s, result sample_code (wrapper sample_code <$> [VFunction 9 ∅])
               (VObject {[ "a" := VNum 1 ]}) ≠ Handle s)
  ∧ result sample_code (wrapper sample_code <$> [VFunction 9 ∅])
           (VObject {[ "a" := VNum 1 ]}) = Returned {[ "a" := VNum 1 ]}.
Proof.
  destruct (pure_synchronous_path sample_code [VFunction 9 ∅]
              (VObject {[ "a" := VNum 1 ]})) as [Hno Hret].
  - intros pre p post env out Heq _ Hp.
    destruct pre as [| q [| q' pre]]; simpl in Heq; [| discriminate..].
    injection Heq as <- <-. vm_compute in Hp. injection Hp as <-. reflexivity.
  - split; [exact Hno |]. apply Hret.
    econstructor; [vm_compute; reflexivity | reflexivity | constructor].
Defined.

(** C4 (deferred detection).  A value is classified as deferred exactly
    when it is an object other than null, or a function, and its "then"
    property is a function; null and the values that are neither objects
    nor functions are immediate.  So a pass that returns an ordinary
    object with a callable "then" makes the runner return a deferred
    handle, whatever that function does. *)
Theorem deferred_detection code :
  (∀ v, isThenable v = true ↔
        v ≠ VNull ∧ (typeof v = "object" ∨ typeof v = "function")
        ∧ typeof (get v "then") = "function")
  ∧ isThenable VNull = false
  ∧ (∀ v, typeof v ≠ "object" → typeof v ≠ "function" → isThenable v = false)
  ∧ (∀ pre p post input env props f fprops,
       immediate_run pre (initial_env input) env →
       p (VObject env) = Return (VObject props) →
       props !! "then" = Some (VFunction f fprops) →
       ∃ s, result code (pre ++ p :: post) input = Handle s).
Proof.
  split_and!.
  - apply isThenable_spec.
  - reflexivity.
  - intros v Ho Hf. destruct (isThenable v) eqn:Hv; [| done].
    apply isThenable_spec in Hv as (_ & [?|?] & _); done.
  - intros pre p post input env props f fprops Hpre Hp Hthen.
    destruct (run_from_immediate code _ _ _ Hpre 0) as (t & _ & Heq).
    unfold result, run. rewrite Heq. simpl. rewrite Hp.
    assert (isThenable (VObject props) = true) as ->.
    { rewrite isThenable_object. simpl. by rewrite Hthen. }
    destruct (switch _ _ _ _ _) as [s t']. by exists s.
Qed.

Lemma deferred_detection_witness :
  ∃ s, result sample_code
         ([] ++ wrapper sample_code (VFunction 3 ∅) :: [])
         (VObject {[ "input" := VNum 5 ]}) = Handle s.
Proof.
  destruct (deferred_detection sample_code) as (_ & _ & _ & Hswitch).
  eapply (Hswitch [] _ [] _ {[ "input" := VNum 5 ]}).
  - constructor.
  - vm_compute. reflexivity.
  - vm_compute. reflexivity.
Defined.

(** C5 (failure propagation).  Let the passes before [p] return immediate
    values.  If [p] throws, the invocation raises what it threw, and [p]
    is the last pass called.  If [p] returns a deferred value, then
    whichever pass called from there on fails (it throws, or the deferred
    value it returns is rejected), the handle is rejected with that
    reason and no pass after the failing one is called.  In neither case
    is an environment returned. *)
Theorem failure_propagation code (pre : list pass) (p : pass)
    (post : list pass) (input : value) (env : gmap string value) :
  immediate_run pre (initial_env input) env →
  (∀ x, p (VObject env) = Throw x →
     result code (pre ++ p :: post) input = Raised x
     ∧ (calls code (pre ++ p :: post) input).*1 = seq 0 (S (length pre)))
  ∧ (∀ out, p (VObject env) = Return out → isThenable out = true →
     ∀ j v q x,
       (j, v) ∈ calls code (pre ++ p :: post) input →
       length pre ≤ j →
       (pre ++ p :: post) !! j = Some q →
       fails code q v x →
       result code (pre ++ p :: post) input = Handle (Rejected x)
       ∧ ∀ i v', (i, v') ∈ calls code (pre ++ p :: post) input → i ≤ j).
Proof.
  intros Hpre. split.
  - intros x Hp.
    destruct (run_at_throw code pre p post input env x Hpre Hp) as (t & Ht & Hrun).
    unfold result, calls. rewrite Hrun. cbn [fst snd]. split; [done |].
    by rewrite fmap_app, Ht, seq_S.
  - intros out Hp Hout. by apply (failure_after_switch code pre p post input env out).
Qed.

Lemma failure_propagation_witness :
  (result sample_code
     ([wrapper sample_code (VFunction 0 ∅)]
        ++ wrapper sample_code (VFunction 5 ∅) :: [wrapper sample_code (VFunction 1 ∅)])
     (VObject {[ "input" := VNum 1 ]}) = Raised (Thrown (VStr "boom"))
   ∧ (calls sample_code
        ([wrapper sample_code (VFunction 0 ∅)]
           ++ wrapper sample_code (VFunction 5 ∅) :: [wrapper sample_code (VFunction 1 ∅)])
        (VObject {[ "input" := VNum 1 ]})).*1 = [0; 1])
  ∧ (result sample_code
       ([] ++ wrapper sample_code (VFunction 3 ∅)
           :: [wrapper sample_code (VFunction 5 ∅); wrapper sample_code (VFunction 1 ∅)])
       (VObject {[ "input" := VNum 5 ]}) = Handle (Rejected (Thrown (VStr "boom")))
     ∧ ∀ i v',
         (i, v') ∈ calls sample_code
           ([] ++ wrapper sample_code (VFunction 3 ∅)
               :: [wrapper sample_code (VFunction 5 ∅); wrapper sample_code (VFunction 1 ∅)])
           (VObject {[ "input" := VNum 5 ]}) → i ≤ 1).
Proof.
  split.
  - destruct (failure_propagation sample_code
                [wrapper sample_code (VFunction 0 ∅)]
                (wrapper sample_code (VFunction 5 ∅))
                [wrapper sample_code (VFunction 1 ∅)]
                (VObject {[ "input" := VNum 1 ]})
                (merge (VObject {[ "input" := VNum 1 ]})
                       (VObject {[ "output" := VNum 2 ]}))) as [Hsync _].
    + eapply (immediate_cons _ _ _ (VObject {[ "output" := VNum 2 ]}));
        [vm_compute; reflexivity | reflexivity | constructor].
    + apply Hsync. reflexivity.
  - destruct (failure_propagation sample_code []
                (wrapper sample_code (VFunction 3 ∅))
                [wrapper sample_code (VFunction 5 ∅); wrapper sample_code (VFunction 1 ∅)]
                (VObject {[ "input" := VNum 5 ]})
                {[ "input" := VNum 5 ]}) as [_ Hasync]; [constructor |].
    eapply (Hasync (thenable (VObject {[ "output" := VNum 15 ]})) _ _
              1 (VObject (<["output" := VNum 15]> {[ "input" := VNum 5 ]}))
              (wrapper sample_code (VFunction 5 ∅)) (Thrown (VStr "boom"))).
    + apply list_elem_of_lookup. exists 1. vm_compute. reflexivity.
    + simpl. lia.
    + reflexivity.
    + left. reflexivity.
    Unshelve.
    * vm_compute. reflexivity.
    * reflexivity.
Defined.

(** C6 (invalid pass).  Let [fn] be neither a function nor a truthy value
    with a callable "run".  Registering it stores a pass like any other,
    and finalizing copies it; the stored pass raises the type error
    whenever it is called.  So a run in which the passes registered
    before it return immediate values calls them all and then raises the
    error, and a run that reaches it after the switch rejects the handle
    with it. *)
Theorem invalid_pass_detection code (fn : value) :
  typeof fn ≠ "function" →
  truthy fn && bool_decide (typeof (get fn "run") = "function") = false →
  let error := TypeError
    "addPass expects a function or an object with a run(env) method" in
  (∀ v, wrapper code fn v = Throw error)
  ∧ (∀ b (h : gmap loc (list pass)) b' h1 r h2,
       Builder.addPass code b fn h = (b', h1) →
       Builder.build b' h1 = (r, h2) →
       b' = b ∧ h2 !!! r = (h !!! b) ++ [wrapper code fn]
       ∧ ∀ input env,
           immediate_run (h !!! b) (initial_env input) env →
           (Builder.call_runner code r input h2).1 = Raised error
           ∧ (Builder.call_runner code r input h2).2.*1
             = seq 0 (S (length (h !!! b))))
  ∧ (∀ (pre : list pass) (p : pass) (mid post : list pass) input env out v,
       immediate_run pre (initial_env input) env →
       p (VObject env) = Return out → isThenable out = true →
       (S (length pre + length mid), v)
         ∈ calls code (pre ++ p :: mid ++ wrapper code fn :: post) input →
       result code (pre ++ p :: mid ++ wrapper code fn :: post) input
       = Handle (Rejected error)).
Proof.
  intros Hfun Hrun error.
  assert (∀ v, wrapper code fn v = Throw error) as Hthrow.
  { intros v. unfold wrapper. rewrite Hrun.
    by rewrite bool_decide_eq_false_2. }
  split_and!; [done | |].
  - intros b h b' h1 r h2 Hadd Hbuild.
    destruct (addPass_spec _ _ _ _ _ _ Hadd) as (-> & Hown & Hdom & _).
    destruct (build_spec _ _ _ _ Hbuild) as (_ & Hcopy & _).
    rewrite Hcopy, Hown. split_and!; [done..|].
    intros input env Hpre. unfold Builder.call_runner. rewrite Hcopy, Hown.
    destruct (run_at_throw code (h !!! b) (wrapper code fn) [] input env error
                Hpre (Hthrow _)) as (t & Ht & Heq).
    rewrite Heq. cbn [fst snd]. split; [done |].
    by rewrite fmap_app, Ht, seq_S.
  - intros pre p mid post input env out v Hpre Hp Hout Hin.
    eapply (failure_after_switch code pre p _ input env out Hpre Hp Hout
              _ v (wrapper code fn) error Hin); [lia | | by left].
    rewrite lookup_app_r by lia.
    replace (S (length pre + length mid) - length pre) with (S (length mid)) by lia.
    simpl. by rewrite list_lookup_middle.
Qed.

Lemma invalid_pass_detection_witness :
  wrapper sample_code (VNum 5) (VObject ∅)
  = Throw (TypeError
      "addPass expects a function or an object with a run(env) method")
  ∧ result sample_code
      ([] ++ wrapper sample_code (VFunction 3 ∅)
          :: [wrapper sample_code (VFunction 1 ∅)]
          ++ wrapper sample_code (VNum 5) :: [])
      (VObject {[ "input" := VNum 5 ]})
    = Handle (Rejected (TypeError
        "addPass expects a function or an object with a run(env) method")).
Proof.
  destruct (invalid_pass_detection sample_code (VNum 5))
    as (Hthrow & _ & Hlate); [discriminate | reflexivity |].
  split; [apply Hthrow |].
  apply (Hlate [] _ [_] [] _ {[ "input" := VNum 5 ]}
           (thenable (VObject {[ "output" := VNum 15 ]}))
           (VObject (<["log" := VStr "5 => 15"]>
                       (<["output" := VNum 15]> {[ "input" := VNum 5 ]})))).
  - constructor.
  - vm_compute. reflexivity.
  - reflexivity.
  - apply list_elem_of_lookup. exists 2. vm_compute. reflexivity.
Defined.

(** C7 (finalize snapshots).  A runner holds the sequence of passes as it
    was when it was built.  Whatever is done to the builder afterwards,
    registering passes or finalizing again, changes the builder's own
    sequence and leaves the runner's as it was, so the runner runs as
    before; and a later finalize makes a copy of its own, of the sequence
    as it is then. *)
Theorem finalize_snapshot code (b : loc) (h : gmap loc (list pass))
    (ops : list Builder.op) (input : value) r h1 r' h3 :
  b ∈ dom h →
  Builder.build b h = (r, h1) →
  Builder.build b (Builder.exec_ops code b ops h1) = (r', h3) →
  h1 !!! r = h !!! b
  ∧ Builder.exec_ops code b ops h1 !!! b = (h !!! b) ++ Builder.registered code ops
  ∧ Builder.exec_ops code b ops h1 !!! r = h !!! b
  ∧ Builder.call_runner code r input (Builder.exec_ops code b ops h1)
    = Builder.call_runner code r input h1
  ∧ r ≠ b ∧ r' ≠ b ∧ r' ≠ r
  ∧ h3 !!! r' = (h !!! b) ++ Builder.registered code ops
  ∧ h3 !!! r = h !!! b
  ∧ Builder.call_runner code r input h3 = Builder.call_runner code r input h1.
Proof.
  intros Hb Hbuild Hagain.
  destruct (build_spec _ _ _ _ Hbuild) as (Hfresh & Hcopy & Hold).
  destruct (Hold b Hb) as [Hb1 Hbeq].
  assert (r ≠ b) as Hrb by congruence.
  assert (r ∈ dom h1) as Hr1.
  { apply alloc_spec in Hbuild as [_ Heq].
    apply elem_of_dom. rewrite Heq, lookup_insert_eq. eauto. }
  destruct (exec_ops_spec code b ops h1 Hb1) as (Hb2 & Hown & Hother).
  destruct (Hother r Hrb Hr1) as [Hr2 Hreq].
  destruct (build_spec _ _ _ _ Hagain) as (Hfresh' & Hcopy' & Hold').
  destruct (Hold' r Hr2) as [Hr3 Hreq3].
  unfold Builder.call_runner.
  split_and!; congruence.
Qed.

Lemma finalize_snapshot_witness :
  Builder.call_runner sample_code 1 (VObject {[ "input" := VNum 1 ]})
    (Builder.exec_ops sample_code 0
       [Builder.AddPass (VFunction 1 ∅); Builder.Build; Builder.AddPass (VNum 5)]
       (<[1 := [wrapper sample_code (VFunction 0 ∅)]]>
          {[ 0 := [wrapper sample_code (VFunction 0 ∅)] ]}))
  = Builder.call_runner sample_code 1 (VObject {[ "input" := VNum 1 ]})
      (<[1 := [wrapper sample_code (VFunction 0 ∅)]]>
         {[ 0 := [wrapper sample_code (VFunction 0 ∅)] ]}).
Proof.
  destruct (Builder.build 0
              (Builder.exec_ops sample_code 0
                 [Builder.AddPass (VFunction 1 ∅); Builder.Build;
                  Builder.AddPass (VNum 5)]
                 (<[1 := [wrapper sample_code (VFunction 0 ∅)]]>
                    {[ 0 := [wrapper sample_code (VFunction 0 ∅)] ]})))
    as [r' h3] eqn:Hagain.
  refine (proj1 (proj2 (proj2 (proj2
    (finalize_snapshot sample_code 0
       {[ 0 := [wrapper sample_code (VFunction 0 ∅)] ]}
       [Builder.AddPass (VFunction 1 ∅); Builder.Build; Builder.AddPass (VNum 5)]
       (VObject {[ "input" := VNum 1 ]}) 1 _ r' h3 _ _ Hagain))))).
  - apply elem_of_dom. exists [wrapper sample_code (VFunction 0 ∅)]. reflexivity.
  - vm_compute. reflexivity.
Defined.

(** C8 (fresh environment): the code at the failing input.  The caller's
    input, at location 0, has a "then" that resolves with an object that
    the caller holds, at location 1.  The first pass returns a promise of
    [{ a: 1 }], the second is [env => { env.touched = true }].  After the
    switch the chain is resolved with the environment object, whose
    "then" is called: the second pass is handed the caller's object
    itself, in both invocations, and writes to it.  With the first pass
    returning [{ a: 1 }] immediately, the second pass is handed a new
    object and the caller's objects stay as they were. *)
Lemma fresh_environment_failing_input :
  let passes := [EnvStore.pure (wrapper resolved_code (VFunction 0 ∅));
                 EnvStore.touch] in
  let sync_passes :=
    [EnvStore.pure (λ _, Return (VObject {[ "a" := VNum 1 ]}));
     EnvStore.touch] in
  let h : gmap loc (gmap string value) :=
    <[1 := {[ "x" := VNum 1 ]}]> {[ 0 := {[ "then" := VFunction 2 ∅ ]} ]} in
  let first := EnvStore.run resolved_code (EnvStore.resolve_with 1)
                 passes (EnvStore.Ref 0) h in
  let second := EnvStore.run resolved_code (EnvStore.resolve_with 1)
                  passes (EnvStore.Ref 0) first.2 in
  let sync := EnvStore.run resolved_code (EnvStore.resolve_with 1)
                sync_passes (EnvStore.Ref 0) h in
  Forall EnvStore.confined passes
  ∧ first.1.2 = [(0, EnvStore.Ref 2); (1, EnvStore.Ref 1)]
  ∧ second.1.2 = [(0, EnvStore.Ref 5); (1, EnvStore.Ref 1)]
  ∧ 1 ∈ dom h
  ∧ first.2 !! 1 = Some (<["touched" := VBool true]> {[ "x" := VNum 1 ]})
  ∧ sync.1.2 = [(0, EnvStore.Ref 2); (1, EnvStore.Ref 3)]
  ∧ sync.2 !! 0 = h !! 0 ∧ sync.2 !! 1 = h !! 1.
Proof.
  cbv zeta. split_and!.
  - constructor; [apply pure_confined |].
    constructor; [apply touch_confined | constructor].
  - vm_compute. reflexivity.
  - vm_compute. reflexivity.
  - apply elem_of_dom. exists {[ "x" := VNum 1 ]}. reflexivity.
  - vm_compute. reflexivity.
  - vm_compute. reflexivity.
  - vm_compute. reflexivity.
  - vm_compute. reflexivity.
Qed.

(** C9 (capability objects), as amended.  For a function whose behaviour
    does not depend on the receiver it is called on, registering an object
    whose "run" is that function gives the same final environment, for
    every input, as registering the function itself. *)
Theorem capability_object_equivalence code f fprops props
    (before after : list value) (input : value) :
  props !! "run" = Some (VFunction f fprops) →
  (∀ this arg, invoke (code f) this arg = invoke (code f) VUndefined arg) →
  result code (wrapper code <$> before ++ VObject props :: after) input
  = result code (wrapper code <$> before ++ VFunction f fprops :: after) input.
Proof.
  intros Hrun Hrecv. unfold result, run. f_equal.
  apply run_from_ext. rewrite !fmap_app, !fmap_cons.
  apply Forall2_app; [by apply Forall_Forall2_diag, Forall_true |].
  constructor; [| by apply Forall_Forall2_diag, Forall_true].
  intros v. unfold wrapper. simpl. rewrite Hrun. simpl. apply Hrecv.
Qed.

Lemma capability_object_equivalence_witness :
  result sample_code
    (wrapper sample_code <$> [VFunction 9 ∅] ++ VObject {[ "run" := VFunction 0 ∅ ]} :: [VFunction 1 ∅])
    (VObject {[ "input" := VNum 4 ]})
  = result sample_code
      (wrapper sample_code <$> [VFunction 9 ∅] ++ VFunction 0 ∅ :: [VFunction 1 ∅])
      (VObject {[ "input" := VNum 4 ]}).
Proof.
  apply (capability_object_equivalence sample_code 0 ∅ {[ "run" := VFunction 0 ∅ ]}).
  - reflexivity.
  - reflexivity.
Defined.

(** C9 as stated fails for a function that looks at its receiver: called
    as [fn(env)] it has none, called as [obj.run(env)] it has [obj]. *)
Lemma capability_object_counterexample :
  ¬ (∀ code f (input : value),
       result code (wrapper code <$> [VObject {[ "run" := VFunction f ∅ ]}]) input
       = result code (wrapper code <$> [VFunction f ∅]) input).
Proof.
  intros Hall. specialize (Hall sample_code 4 (VObject ∅)).
  vm_compute in Hall. discriminate.
Qed.

(** C10 (callable first).  A registered value that is a function is called
    directly with the environment, whatever its properties, a callable
    "run" included; "run" is called, on the registered value, only when
    that value is not a function. *)
Theorem callable_takes_precedence code (env : value) :
  (∀ f props, wrapper code (VFunction f props) env
              = invoke (code f) VUndefined env)
  ∧ (∀ f props g gprops,
       props !! "run" = Some (VFunction g gprops) →
       wrapper code (VFunction f props) env = invoke (code f) VUndefined env)
  ∧ (∀ props g gprops,
       props !! "run" = Some (VFunction g gprops) →
       wrapper code (VObject props) env = invoke (code g) (VObject props) env).
Proof.
  split_and!.
  - reflexivity.
  - reflexivity.
  - intros props g gprops Hrun. unfold wrapper. simpl. by rewrite Hrun.
Qed.

Lemma callable_takes_precedence_witness :
  wrapper sample_code (VFunction 0 {[ "run" := VFunction 5 ∅ ]})
          (VObject {[ "input" := VNum 1 ]})
  = Return (VObject {[ "output" := VNum 2 ]})
  ∧ wrapper sample_code (VObject {[ "run" := VFunction 5 ∅ ]})
            (VObject {[ "input" := VNum 1 ]})
    = Throw (Thrown (VStr "boom")).
Proof.
  destruct (callable_takes_precedence sample_code (VObject {[ "input" := VNum 1 ]}))
    as (_ & Hfun & Hobj).
  split.
  - rewrite (Hfun 0 {[ "run" := VFunction 5 ∅ ]} 5 ∅); [| reflexivity].
    vm_compute. reflexivity.
  - rewrite (Hobj {[ "run" := VFunction 5 ∅ ]} 5 ∅); reflexivity.
Defined.

(** * Further properties of the runner *)

(** ** How a run ends, by the first pass that does not return an
    immediate value *)

Section first_outcome.
Context (code : fid → closure).


End first_outcome.


(** ** The order of the calls *)

Section order.
Context (code : fid → closure).

Lemma reduce_passes_indices ps :
  ∀ j s0 t0, ∃ t1 m,
    (reduce_passes code j ps (s0, t0)).2 = t0 ++ t1
    ∧ m ≤ length ps ∧ t1.*1 = seq j m
    ∧ ∀ v, (reduce_passes code j ps (s0, t0)).1 = Fulfilled v → m = length ps.
Proof.
  induction ps as [| next rest IH]; intros j s0 t0.
  { exists [], 0. by rewrite app_nil_r. }
  destruct s0 as [v0 | e |].
  - cbn [reduce_passes].
    destruct (reduce_step_shape code j v0 t0 next) as (s1 & -> & _).
    destruct (IH (S j) s1 (t0 ++ [(j, v0)])) as (t1 & m & Ht & Hm & Hseq & Hall).
    exists ((j, v0) :: t1), (S m). split_and!.
    + rewrite <- app_assoc in Ht. exact Ht.
    + simpl. lia.
    + rewrite fmap_cons, Hseq. reflexivity.
    + intros v Hv. simpl. f_equal. by eapply Hall.
  - exists [], 0. rewrite reduce_passes_stuck by done.
    rewrite app_nil_r. split_and!; [done | simpl; lia | done | done].
  - exists [], 0. rewrite reduce_passes_stuck by done.
    rewrite app_nil_r. split_and!; [done | simpl; lia | done | done].
Qed.

Lemma switch_indices i env out remaining :
  ∃ m, m ≤ length remaining
       ∧ (switch code i env out remaining).2.*1 = seq (S i) m
       ∧ ∀ v, (switch code i env out remaining).1 = Fulfilled v →
              m = length remaining.
Proof.
  rewrite switch_unfold.
  destruct (settle code out) as [r | e |]; cbn [fst snd];
    [| exists 0; split_and!; [lia | done | done] ..].
  destruct (reduce_passes_indices remaining (S i)
              (settle code (VObject (merge (VObject env) r))) [])
    as (t1 & m & Ht & Hm & Hseq & Hall).
  change ([] ++ t1) with t1 in Ht. rewrite Ht.
  exists m. split_and!; [done | done |].
  intros v Hv.
  destruct (reduce_passes _ _ _ _).1 as [v' | |] eqn:Hred; try discriminate.
  by eapply Hall.
Qed.

Lemma run_from_indices ps :
  ∀ i env log, ∃ t1 m,
    (run_from code i ps env log).2 = log ++ t1
    ∧ m ≤ length ps ∧ t1.*1 = seq i m
    ∧ ((∃ e, (run_from code i ps env log).1 = Returned e)
       ∨ (∃ v, (run_from code i ps env log).1 = Handle (Fulfilled v)) →
       m = length ps).
Proof.
  induction ps as [| p rest IH]; intros i env log.
  { exists [], 0. by rewrite app_nil_r. }
  cbn [run_from]. destruct (p (VObject env)) as [out | x].
  - destruct (isThenable out).
    + destruct (switch_indices i env out rest) as (m & Hm & Hseq & Hall).
      destruct (switch code i env out rest) as [s t]. cbn [fst snd] in *.
      exists ((i, VObject env) :: t), (S m). split_and!.
      * by rewrite <- app_assoc.
      * simpl. lia.
      * rewrite fmap_cons, Hseq. reflexivity.
      * intros [[e [=]] | [v [= ->]]]. simpl. f_equal. by eapply Hall.
    + destruct (IH (S i) (merge (VObject env) out) (log ++ [(i, VObject env)]))
        as (t1 & m & Ht & Hm & Hseq & Hall).
      exists ((i, VObject env) :: t1), (S m). split_and!.
      * rewrite <- app_assoc in Ht. exact Ht.
      * simpl. lia.
      * rewrite fmap_cons, Hseq. reflexivity.
      * intros Hok. simpl. f_equal. by apply Hall.
  - exists [(i, VObject env)], 1. split_and!; [done | simpl; lia | done |].
    by intros [[e [=]] | [v [=]]].
Qed.

End order.

(** X2 (calls in order).  In every run the passes are called in
    registration order, from the first one on, without gap and each at
    most once; and when the run delivers an environment, returned or
    fulfilling the handle, every pass has been called. *)
Theorem calls_in_order code (ps : list pass) (input : value) :
  ∃ m, m ≤ length ps
       ∧ (calls code ps input).*1 = seq 0 m
       ∧ ((∃ e, result code ps input = Returned e)
          ∨ (∃ v, result code ps input = Handle (Fulfilled v)) →
          m = length ps).
Proof.
  destruct (run_from_indices code ps 0 (initial_env input) [])
    as (t1 & m & Ht & Hm & Hseq & Hall).
  exists m. unfold calls, result, run. rewrite Ht. by split_and!.
Qed.

(** ** Deferred results that do not settle *)

Section stall.
Context (code : fid → closure).

Lemma stalls_returned (p : pass) v out s :
  p v = Return out → stalls code p v s → settle code out = s.
Proof. intros Hp (_ & maybe & Hr & Hs). congruence. Qed.

Lemma reduce_step_stall j v t next s :
  stalls code next v s →
  reduce_step code j (Fulfilled v, t) next = (s, t ++ [(j, v)]).
Proof.
  intros (Hs & maybe & Hnext & Hset). rewrite reduce_step_fulfilled, Hnext, Hset.
  destruct s as [r | e |]; [by destruct (Hs r) | done | done].
Qed.

(** A call whose deferred result does not get fulfilled is the last one,
    and the chain ends in the state of that result. *)
Lemma reduce_passes_stall ps :
  ∀ j0 s0 t0, ∃ t1,
    (reduce_passes code j0 ps (s0, t0)).2 = t0 ++ t1
    ∧ (∀ j v, (j, v) ∈ t1 → j0 ≤ j < j0 + length ps)
    ∧ (∀ j v q s,
         (j, v) ∈ t1 → ps !! (j - j0) = Some q → stalls code q v s →
         (reduce_passes code j0 ps (s0, t0)).1 = s
         ∧ ∀ i v', (i, v') ∈ t1 → i ≤ j).
Proof.
  induction ps as [| next rest IH]; intros j0 s0 t0.
  { exists []. rewrite app_nil_r.
    split_and!; [done | intros ?? []%elem_of_nil | intros ???? []%elem_of_nil]. }
  destruct s0 as [v0 | e |];
    [| exists []; rewrite reduce_passes_stuck, app_nil_r by done;
       split_and!;
       [done | intros ?? []%elem_of_nil | intros ???? []%elem_of_nil] ..].
  cbn [reduce_passes].
  destruct (reduce_step_shape code j0 v0 t0 next) as (s1 & Hstep & _).
  rewrite Hstep.
  destruct (IH (S j0) s1 (t0 ++ [(j0, v0)])) as (t1 & Ht & Hbound & Hlast).
  exists ((j0, v0) :: t1). split_and!.
  - rewrite <- app_assoc in Ht. exact Ht.
  - intros j v [[= -> ->] | Hin%Hbound]%elem_of_cons; simpl; lia.
  - intros j v q s [[= -> ->] | Hin]%elem_of_cons Hq Hs.
    + rewrite Nat.sub_diag in Hq. injection Hq as <-.
      rewrite (reduce_step_stall j0 v0 t0 _ s Hs) in Hstep.
      injection Hstep as <-.
      rewrite reduce_passes_stuck in Ht |- * by apply Hs.
      cbn [fst snd] in *.
      rewrite <- (app_nil_r (t0 ++ [(j0, v0)])) in Ht at 1.
      apply app_inv_head in Ht. subst t1. split; [done |].
      intros i v' [[= -> ->] | ?%elem_of_nil]%elem_of_cons; [lia | done].
    + pose proof (Hbound _ _ Hin) as Hj.
      replace (j - j0) with (S (j - S j0)) in Hq by lia.
      destruct (Hlast j v q s Hin Hq Hs) as [Hres Hle].
      split; [done |].
      intros i v' [[= -> ->] | Hin']%elem_of_cons; [lia | eauto].
Qed.

End stall.

(** X3 (suspension).  Let the passes before [p] return immediate values
    and [p] return a deferred value.  If the deferred value returned by a
    pass called from there on is never settled, the handle is never
    settled either, and no pass after that one is called; more generally
    the handle ends in the state of the first deferred result that is
    not fulfilled. *)
Theorem stall_after_switch code (pre : list pass) (p : pass)
    (post : list pass) (input : value) (env : gmap string value) out :
  immediate_run pre (initial_env input) env →
  p (VObject env) = Return out → isThenable out = true →
  ∀ j v q s,
    (j, v) ∈ calls code (pre ++ p :: post) input →
    length pre ≤ j →
    (pre ++ p :: post) !! j = Some q →
    stalls code q v s →
    result code (pre ++ p :: post) input = Handle s
    ∧ ∀ i v', (i, v') ∈ calls code (pre ++ p :: post) input → i ≤ j.
Proof.
  intros Hpre Hp Hout j v q s.
  destruct (run_at_switch code pre p post input env out Hpre Hp Hout)
    as (t & Ht & Hrun).
  unfold result, calls. rewrite Hrun. clear Hrun.
  rewrite switch_unfold.
  destruct (settle code out) as [r | e |] eqn:Hs; cbn [fst snd].
  - destruct (reduce_passes_stall code post (S (length pre))
                (settle code (VObject (merge (VObject env) r))) [])
      as (t1 & Ht1 & Hbound & Hlast).
    change ([] ++ t1) with t1 in Ht1. rewrite Ht1.
    intros [[Hin%(prefix_calls_lt _ _ _ _ Ht) | [= -> ->]%list_elem_of_singleton]%elem_of_app
           | Hin]%elem_of_app Hj Hq Hx; [lia | |].
    + rewrite list_lookup_middle in Hq by done. injection Hq as <-.
      pose proof (stalls_returned _ _ _ _ _ Hp Hx) as Hs'.
      destruct Hx as [Hnf _]. rewrite Hs in Hs'. by destruct (Hnf r).
    + pose proof (Hbound _ _ Hin) as Hjb.
      rewrite lookup_app_r, lookup_cons_ne_0 in Hq by lia.
      replace (Init.Nat.pred (j - length pre)) with (j - S (length pre)) in Hq by lia.
      destruct (Hlast j v q s Hin Hq Hx) as [-> Hle].
      destruct Hx as [Hnf _]. split.
      * destruct s as [r' | |]; [by destruct (Hnf r') | done | done].
      * intros i v'
          [[Hi%(prefix_calls_lt _ _ _ _ Ht) | [= -> ->]%list_elem_of_singleton]%elem_of_app
          | Hi]%elem_of_app; [lia | lia | eauto].
  - rewrite app_nil_r.
    intros [Hin%(prefix_calls_lt _ _ _ _ Ht) | [= -> ->]%list_elem_of_singleton]%elem_of_app
      Hj Hq Hx; [lia |].
    rewrite list_lookup_middle in Hq by done. injection Hq as <-.
    apply (stalls_returned _ _ _ _ _ Hp) in Hx.
    split; [congruence |].
    intros i v'
      [Hi%(prefix_calls_lt _ _ _ _ Ht) | [= -> ->]%list_elem_of_singleton]%elem_of_app;
      lia.
  - rewrite app_nil_r.
    intros [Hin%(prefix_calls_lt _ _ _ _ Ht) | [= -> ->]%list_elem_of_singleton]%elem_of_app
      Hj Hq Hx; [lia |].
    rewrite list_lookup_middle in Hq by done. injection Hq as <-.
    apply (stalls_returned _ _ _ _ _ Hp) in Hx.
    split; [congruence |].
    intros i v'
      [Hi%(prefix_calls_lt _ _ _ _ Ht) | [= -> ->]%list_elem_of_singleton]%elem_of_app;
      lia.
Qed.

Lemma stall_after_switch_witness :
  result sample_code
    ([] ++ wrapper sample_code (VFunction 8 ∅)
        :: [wrapper sample_code (VFunction 0 ∅)])
    (VObject {[ "input" := VNum 1 ]}) = Handle Pending
  ∧ ∀ i v',
      (i, v') ∈ calls sample_code
        ([] ++ wrapper sample_code (VFunction 8 ∅)
            :: [wrapper sample_code (VFunction 0 ∅)])
        (VObject {[ "input" := VNum 1 ]}) → i ≤ 0.
Proof.
  eapply (stall_after_switch sample_code [] (wrapper sample_code (VFunction 8 ∅))
            [wrapper sample_code (VFunction 0 ∅)]
            (VObject {[ "input" := VNum 1 ]}) {[ "input" := VNum 1 ]}
            (VObject {[ "then" := VFunction 10 ∅ ]})
            (immediate_nil _) eq_refl eq_refl
            0 (VObject {[ "input" := VNum 1 ]})
            (wrapper sample_code (VFunction 8 ∅)) Pending).
  - apply list_elem_of_lookup. exists 0. vm_compute. reflexivity.
  - simpl. lia.
  - reflexivity.
  - split; [done |]. eexists. split; reflexivity.
Defined.

(** ** The runner and the sequential loop *)

Section sequential_facts.
Context (code : fid → closure).

Lemma sequential_cons j (p : pass) rest env :
  sequential code j (p :: rest) env =
  match p (VObject env) with
  | Throw e => (Rejected e, [(j, VObject env)])
  | Return out =>
      match settle code out with
      | Fulfilled r =>
          ((sequential code (S j) rest (merge (VObject env) r)).1,
           (j, VObject env)
             :: (sequential code (S j) rest (merge (VObject env) r)).2)
      | Rejected e => (Rejected e, [(j, VObject env)])
      | Pending => (Pending, [(j, VObject env)])
      end
  end.
Proof.
  cbn [sequential]. destruct (p (VObject env)) as [out | e]; [| done].
  destruct (settle code out); try done.
  by destruct (sequential code (S j) rest _).
Qed.

(** The loop delivers an environment exactly when all passes return and
    all their results get fulfilled: the environment merged through
    them. *)
Lemma sequential_merged ps :
  ∀ j env v,
    (sequential code j ps env).1 = Fulfilled v ↔
    ∃ e, v = VObject e ∧ merged_through code ps env e.
Proof.
  induction ps as [| p rest IH]; intros j env v.
  - simpl. split.
    + intros [= <-]. exists env. split; [done | constructor].
    + intros (e & -> & He). by inversion He.
  - rewrite sequential_cons. split.
    + destruct (p (VObject env)) as [out | x] eqn:Hp; [| done].
      destruct (settle code out) as [r | x |] eqn:Hs; [| done..].
      cbn [fst]. intros (e & -> & He)%IH.
      exists e. split; [done |]. econstructor; eauto.
    + intros (e & -> & (out & r & Hp & Hs & Hrest)%merged_through_cons_inv).
      rewrite Hp, Hs. cbn [fst]. apply IH. eauto.
Qed.

(** What the loop delivers does not depend on the position it starts
    from. *)
Lemma sequential_position ps :
  ∀ j j' env, (sequential code j ps env).1 = (sequential code j' ps env).1.
Proof.
  induction ps as [| p rest IH]; intros j j' env; [done |].
  rewrite !sequential_cons.
  destruct (p (VObject env)) as [out | x]; [| done].
  destruct (settle code out); try done. cbn [fst]. apply IH.
Qed.

Lemma sequential_app ps qs :
  ∀ j env,
    (sequential code j (ps ++ qs) env).1 =
    match (sequential code j ps env).1 with
    | Fulfilled (VObject mid) => (sequential code 0 qs mid).1
    | s => s
    end.
Proof.
  induction ps as [| p rest IH]; intros j env.
  - simpl. apply sequential_position.
  - rewrite <- app_comm_cons, !sequential_cons.
    destruct (p (VObject env)) as [out | x]; [| done].
    destruct (settle code out); try done. cbn [fst]. apply IH.
Qed.

Section flat.
Hypothesis Hflat : flat_table code.

Lemma reduce_passes_sequential ps :
  ∀ j env t,
    isThenable (VObject env) = false →
    reduce_passes code j ps (Fulfilled (VObject env), t)
    = ((sequential code j ps env).1, t ++ (sequential code j ps env).2).
Proof using Hflat.
  induction ps as [| next rest IH]; intros j env t Henv.
  { simpl. by rewrite app_nil_r. }
  cbn [reduce_passes]. rewrite reduce_step_fulfilled, sequential_cons.
  destruct (next (VObject env)) as [maybe | x];
    [| by rewrite reduce_passes_stuck].
  destruct (settle code maybe) as [r | x |] eqn:Hs;
    [| by rewrite reduce_passes_stuck ..].
  assert (isThenable (VObject (merge (VObject env) r)) = false) as Hplain
    by eauto using merge_not_thenable, settle_flat.
  rewrite (settle_immediate _ _ Hplain), IH by done.
  cbn [fst snd]. by rewrite <- app_assoc.
Qed.

Lemma run_from_sequential ps :
  ∀ i env log,
    isThenable (VObject env) = false →
    (outcome (run_from code i ps env log).1, (run_from code i ps env log).2)
    = ((sequential code i ps env).1, log ++ (sequential code i ps env).2).
Proof using Hflat.
  induction ps as [| p rest IH]; intros i env log Henv.
  { simpl. by rewrite app_nil_r. }
  cbn [run_from]. rewrite sequential_cons.
  destruct (p (VObject env)) as [out | x]; [| done].
  destruct (isThenable out) eqn:Hout.
  - rewrite switch_unfold.
    destruct (settle code out) as [r | x |] eqn:Hs; cbn [fst snd outcome];
      [| by rewrite app_nil_r ..].
    assert (isThenable (VObject (merge (VObject env) r)) = false) as Hplain
      by eauto using merge_not_thenable, settle_flat.
    rewrite (settle_immediate _ _ Hplain), reduce_passes_sequential by done.
    cbn [fst snd]. rewrite <- app_assoc. f_equal.
    destruct (sequential code (S i) rest _).1 as [v | |] eqn:Hv; try done.
    apply sequential_merged in Hv as (e & -> & He).
    apply settle_immediate. by eapply merged_through_not_thenable.
  - rewrite (settle_immediate _ _ Hout).
    rewrite IH by (by apply merge_not_thenable).
    cbn [fst snd]. by rewrite <- app_assoc.
Qed.

End flat.

End sequential_facts.

(** ** Consequences: composing, removing and replacing passes *)

Section consequences.
Context (code : fid → closure).

Lemma result_sequential (ps : list pass) input :
  flat_table code → isThenable input = false →
  outcome (result code ps input) = (sequential code 0 ps (initial_env input)).1.
Proof.
  intros Hflat Hinput.
  pose proof (run_from_sequential code Hflat ps 0 (initial_env input) []
                (initial_env_not_thenable _ Hinput)) as Heq.
  injection Heq as Hfst _. exact Hfst.
Qed.

Lemma calls_sequential (ps : list pass) input :
  flat_table code → isThenable input = false →
  calls code ps input = (sequential code 0 ps (initial_env input)).2.
Proof.
  intros Hflat Hinput.
  pose proof (run_from_sequential code Hflat ps 0 (initial_env input) []
                (initial_env_not_thenable _ Hinput)) as Heq.
  injection Heq as _ Hsnd. exact Hsnd.
Qed.

Lemma adds_nothing_merge env out :
  adds_nothing out →
  isThenable out = false ∧ merge (VObject env) out = env.
Proof.
  intros [Hf | [Hn | Hb]].
  - split; [| by apply merge_falsy]. unfold isThenable. by rewrite Hf.
  - destruct out; try discriminate.
    unfold isThenable, merge, or_else. destruct (truthy (VNum n)); simpl;
      by rewrite (left_id_L ∅ (∪)).
  - destruct out; try discriminate.
    unfold isThenable, merge, or_else. destruct (truthy (VBool b)); simpl;
      by rewrite (left_id_L ∅ (∪)).
Qed.

Lemma sequential_without (pre : list pass) (p : pass) post :
  (∀ v, ∃ out, p v = Return out ∧ adds_nothing out) →
  ∀ j env,
    (sequential code j (pre ++ p :: post) env).1
    = (sequential code j (pre ++ post) env).1.
Proof.
  intros Hp. induction pre as [| q pre IH]; intros j env.
  - simpl app. rewrite sequential_cons.
    destruct (Hp (VObject env)) as (out & -> & Hout).
    destruct (adds_nothing_merge env out Hout) as [Him Hm].
    rewrite (settle_immediate _ _ Him). cbn [fst]. rewrite Hm.
    apply sequential_position.
  - rewrite <- !app_comm_cons, !sequential_cons.
    destruct (q (VObject env)) as [out | x]; [| done].
    destruct (settle code out); try done. cbn [fst]. apply IH.
Qed.

Lemma sequential_alike (ps qs : list pass) :
  Forall2 (alike code) ps qs →
  ∀ j env, sequential code j ps env = sequential code j qs env.
Proof.
  induction 1 as [| p q ps qs Hpq _ IH]; intros j env; [done |].
  rewrite !sequential_cons. specialize (Hpq (VObject env)).
  destruct (p (VObject env)) as [a | x], (q (VObject env)) as [b | y];
    try done; [| by subst].
  rewrite Hpq. destruct (settle code b); try done. by rewrite IH.
Qed.

Lemma sequential_calls_shift (ps : list pass) :
  ∀ k j env,
    (sequential code (k + j) ps env).2
    = prod_map (Nat.add k) id <$> (sequential code j ps env).2.
Proof.
  induction ps as [| p rest IH]; intros k j env; [done |].
  rewrite !sequential_cons.
  destruct (p (VObject env)) as [out | x]; [| done].
  destruct (settle code out); try done.
  cbn [snd]. rewrite fmap_cons. f_equal.
  rewrite <- IH. by rewrite Nat.add_succ_r.
Qed.

Lemma sequential_app_calls (ps qs : list pass) :
  ∀ j env,
    (sequential code j (ps ++ qs) env).2
    = (sequential code j ps env).2
      ++ match (sequential code j ps env).1 with
         | Fulfilled (VObject mid) => (sequential code (length ps + j) qs mid).2
         | _ => []
         end.
Proof.
  induction ps as [| p rest IH]; intros j env; [done |].
  rewrite <- app_comm_cons, !sequential_cons.
  destruct (p (VObject env)) as [out | x]; [| done].
  destruct (settle code out); try done.
  cbn [fst snd length]. rewrite IH, Nat.add_succ_r. done.
Qed.


Lemma sequential_fulfilled_plain (ps : list pass) j env v :
  flat_table code → isThenable (VObject env) = false →
  (sequential code j ps env).1 = Fulfilled v → isThenable v = false.
Proof.
  intros Hflat Henv (e & -> & He)%sequential_merged.
  by eapply merged_through_not_thenable.
Qed.

(** On values: the run of [ps ++ qs]. *)
Lemma values_composition (ps qs : list pass) input :
  flat_table code → isThenable input = false →
  outcome (result code (ps ++ qs) input)
  = match outcome (result code ps input) with
    | Fulfilled mid => outcome (result code qs mid)
    | s => s
    end
  ∧ calls code (ps ++ qs) input
    = calls code ps input
      ++ match outcome (result code ps input) with
         | Fulfilled mid =>
             prod_map (Nat.add (length ps)) id <$> calls code qs mid
         | _ => []
         end.
Proof.
  intros Hflat Hinput.
  rewrite !(result_sequential _ input), !(calls_sequential _ input),
    sequential_app, sequential_app_calls by done.
  destruct (sequential code 0 ps (initial_env input)).1 as [v | |] eqn:Hv;
    try done.
  apply sequential_merged in Hv as (e & -> & He).
  assert (isThenable (VObject e) = false) as Hmid.
  { eapply merged_through_not_thenable; [done | exact He |].
    by apply initial_env_not_thenable. }
  rewrite result_sequential, calls_sequential by done.
  split; [done |]. f_equal. apply sequential_calls_shift.
Qed.

(** What a run over the store delivered, on values. *)
Lemma delivered_outcome (r : EnvStore.ref_result) (h : EnvStore.store) :
  match EnvStore.delivered r with
  | Some x => outcome (EnvStore.erase_result h r) = Fulfilled (EnvStore.deref h x)
  | None => ∀ v, outcome (EnvStore.erase_result h r) ≠ Fulfilled v
  end.
Proof. by destruct r as [env | e | [x | e |]]. Qed.

End consequences.

(** X4 (one loop).  For passes that only read the environment they are
    handed, deferred values that resolve, as promises do, to values that
    are not themselves deferred, and an input without a callable "then":
    what a run delivers, and the calls it makes, are those of the loop
    that awaits every result and merges it,
    [for (const pass of passes) env = { ...env, ...((await pass(env)) || {}) }].
    The switch of mode changes how the outcome is delivered, not the
    outcome. *)
Theorem runner_refines_sequential code adopt (ps : list pass)
    (input : EnvStore.ref) (h : gmap loc (gmap string value)) :
  flat_table code →
  isThenable (EnvStore.deref h input) = false →
  delivery (EnvStore.run code adopt (EnvStore.pure <$> ps) input h)
  = sequential code 0 ps (initial_env (EnvStore.deref h input)).
Proof.
  intros Hflat Hinput. unfold delivery.
  rewrite (run_erase_plain code adopt Hflat ps input h Hinput).
  unfold run.
  rewrite (run_from_sequential code Hflat) by (by apply initial_env_not_thenable).
  by destruct (sequential code 0 ps _).
Qed.

Lemma runner_refines_sequential_witness :
  delivery (EnvStore.run resolved_code (EnvStore.resolve_with 0)
              (EnvStore.pure <$> [wrapper resolved_code (VFunction 0 ∅);
                                  wrapper resolved_code (VFunction 3 ∅)])
              (EnvStore.Ref 0) {[ 0 := {[ "i" := VNum 0 ]} ]})
  = (Fulfilled (VObject (<["b" := VNum 1]> (<["a" := VNum 1]> {[ "i" := VNum 0 ]}))),
     [(0, VObject {[ "i" := VNum 0 ]});
      (1, VObject (<["a" := VNum 1]> {[ "i" := VNum 0 ]}))]).
Proof.
  assert (isThenable (EnvStore.deref {[ 0 := {[ "i" := VNum 0 ]} ]} (EnvStore.Ref 0))
          = false) as Hinput by (vm_compute; reflexivity).
  rewrite (runner_refines_sequential resolved_code (EnvStore.resolve_with 0)
             [wrapper resolved_code (VFunction 0 ∅);
              wrapper resolved_code (VFunction 3 ∅)]
             (EnvStore.Ref 0) {[ 0 := {[ "i" := VNum 0 ]} ]}
             resolved_code_flat Hinput).
  vm_compute. reflexivity.
Defined.

(** A pass that writes a "then" to the environment takes the run out of
    these conditions: the pass after the promise is then handed what that
    "then" resolves with, not the merged environment. *)
Example writing_pass_leaves_the_loop :
  let r := EnvStore.run resolved_code (EnvStore.values_adopt resolved_code)
             [EnvStore.install_then 2;
              EnvStore.pure (wrapper resolved_code (VFunction 0 ∅));
              EnvStore.pure (wrapper resolved_code (VFunction 3 ∅))]
             (EnvStore.Ref 0) {[ 0 := {[ "i" := VNum 0 ]} ]} in
  (EnvStore.erase_trace r.2 r.1.2) !! 2
  = Some (2, VObject {[ "x" := VNum 1 ]}).
Proof. vm_compute. reflexivity. Qed.

(** X5 (composition).  Under the conditions of X4, a pipeline of the
    passes [ps] followed by the passes [qs] delivers what the pipeline of
    [qs] delivers on the environment object delivered by the pipeline of
    [ps], and the failure or the wait of the latter if it delivers none;
    its calls are those of the pipeline of [ps], followed in the first
    case by those of the pipeline of [qs] at the positions after [ps]. *)
Theorem pipeline_composition code adopt (ps qs : list pass)
    (input : EnvStore.ref) (h : gmap loc (gmap string value)) :
  flat_table code →
  isThenable (EnvStore.deref h input) = false →
  let first := EnvStore.run code adopt (EnvStore.pure <$> ps) input h in
  delivery (EnvStore.run code adopt (EnvStore.pure <$> (ps ++ qs)) input h)
  = match EnvStore.delivered first.1.1 with
    | Some mid =>
        let second :=
          delivery (EnvStore.run code adopt (EnvStore.pure <$> qs) mid first.2) in
        (second.1,
         (delivery first).2 ++ (prod_map (Nat.add (length ps)) id <$> second.2))
    | None => delivery first
    end.
Proof.
  intros Hflat Hinput. cbv zeta. unfold delivery.
  rewrite (run_erase_plain code adopt Hflat (ps ++ qs) input h Hinput).
  pose proof (run_erase_plain code adopt Hflat ps input h Hinput) as Hfirst.
  destruct (values_composition code ps qs (EnvStore.deref h input) Hflat Hinput)
    as [Hout Hcalls].
  fold (result code (ps ++ qs) (EnvStore.deref h input))
       (calls code (ps ++ qs) (EnvStore.deref h input)).
  pose proof (result_sequential code ps _ Hflat Hinput) as Hseq.
  destruct (EnvStore.run code adopt (EnvStore.pure <$> ps) input h)
    as [[res t] h1].
  cbn [fst snd].
  change (EnvStore.erase_run (res, t, h1))
    with (EnvStore.erase_result h1 res, EnvStore.erase_trace h1 t) in *.
  cbn [fst snd].
  assert (result code ps (EnvStore.deref h input) = EnvStore.erase_result h1 res)
    as Hres by (unfold result; by rewrite <- Hfirst).
  assert (calls code ps (EnvStore.deref h input) = EnvStore.erase_trace h1 t)
    as Htr by (unfold calls; by rewrite <- Hfirst).
  rewrite Hres in Hout, Hseq. rewrite Hres, Htr in Hcalls.
  rewrite Hout, Hcalls.
  pose proof (delivered_outcome res h1) as Hdel.
  destruct (EnvStore.delivered res) as [mid |].
  - rewrite Hdel in *.
    assert (isThenable (EnvStore.deref h1 mid) = false) as Hmid.
    { eapply sequential_fulfilled_plain; [done | | by symmetry].
      by apply initial_env_not_thenable. }
    by rewrite (run_erase_plain code adopt Hflat qs mid h1 Hmid).
  - destruct (outcome (EnvStore.erase_result h1 res)) as [v | e |];
      [by destruct (Hdel v) | by rewrite app_nil_r ..].
Qed.

Lemma pipeline_composition_witness :
  delivery (EnvStore.run resolved_code (EnvStore.resolve_with 0)
              (EnvStore.pure <$> ([wrapper resolved_code (VFunction 0 ∅)]
                                    ++ [wrapper resolved_code (VFunction 3 ∅)]))
              (EnvStore.Ref 0) {[ 0 := {[ "i" := VNum 0 ]} ]})
  = (Fulfilled (VObject (<["b" := VNum 1]> (<["a" := VNum 1]> {[ "i" := VNum 0 ]}))),
     [(0, VObject {[ "i" := VNum 0 ]});
      (1, VObject (<["a" := VNum 1]> {[ "i" := VNum 0 ]}))]).
Proof.
  assert (isThenable (EnvStore.deref {[ 0 := {[ "i" := VNum 0 ]} ]} (EnvStore.Ref 0))
          = false) as Hinput by (vm_compute; reflexivity).
  rewrite (pipeline_composition resolved_code (EnvStore.resolve_with 0)
             [wrapper resolved_code (VFunction 0 ∅)]
             [wrapper resolved_code (VFunction 3 ∅)]
             (EnvStore.Ref 0) {[ 0 := {[ "i" := VNum 0 ]} ]}
             resolved_code_flat Hinput).
  vm_compute. reflexivity.
Defined.

(** X6 (results that add nothing).  Under the conditions of X4, a pass
    that only reads the environment and always returns nothing, or
    another falsy value, a number or a boolean, can be removed from the
    pipeline, wherever it stands, without changing what the run
    delivers. *)
Theorem void_pass_removable code adopt (pre : list pass) (p : pass)
    (post : list pass) (input : EnvStore.ref)
    (h : gmap loc (gmap string value)) :
  flat_table code →
  isThenable (EnvStore.deref h input) = false →
  (∀ v, ∃ out, p v = Return out ∧ adds_nothing out) →
  (delivery (EnvStore.run code adopt (EnvStore.pure <$> (pre ++ p :: post))
               input h)).1
  = (delivery (EnvStore.run code adopt (EnvStore.pure <$> (pre ++ post))
                 input h)).1.
Proof.
  intros Hflat Hinput Hp. unfold delivery. cbn [fst].
  rewrite !(run_erase_plain code adopt Hflat _ input h Hinput).
  fold (result code (pre ++ p :: post) (EnvStore.deref h input))
       (result code (pre ++ post) (EnvStore.deref h input)).
  rewrite !result_sequential by done. by apply sequential_without.
Qed.

Lemma void_pass_removable_witness :
  (delivery (EnvStore.run resolved_code (EnvStore.resolve_with 0)
               (EnvStore.pure <$> ([wrapper resolved_code (VFunction 0 ∅)]
                                     ++ wrapper resolved_code (VFunction 4 ∅)
                                     :: [wrapper resolved_code (VFunction 3 ∅)]))
               (EnvStore.Ref 0) {[ 0 := {[ "i" := VNum 0 ]} ]})).1
  = (delivery (EnvStore.run resolved_code (EnvStore.resolve_with 0)
                 (EnvStore.pure <$> ([wrapper resolved_code (VFunction 0 ∅)]
                                       ++ [wrapper resolved_code (VFunction 3 ∅)]))
                 (EnvStore.Ref 0) {[ 0 := {[ "i" := VNum 0 ]} ]})).1.
Proof.
  apply (void_pass_removable resolved_code);
    [apply resolved_code_flat | reflexivity |].
  intros v. exists VUndefined. split; [reflexivity | by left].
Defined.

(** A pass that returns nothing and writes to the environment is not
    such a pass: removing [env => { env.touched = true }] changes what the
    run returns. *)
Example writing_pass_not_removable :
  let h : gmap loc (gmap string value) := {[ 0 := {[ "input" := VNum 1 ]} ]} in
  (delivery (EnvStore.run sample_code (EnvStore.values_adopt sample_code)
               [EnvStore.touch;
                EnvStore.pure (wrapper sample_code (VFunction 0 ∅))]
               (EnvStore.Ref 0) h)).1
  = Fulfilled (VObject (<["output" := VNum 2]>
                          (<["touched" := VBool true]> {[ "input" := VNum 1 ]})))
  ∧ (delivery (EnvStore.run sample_code (EnvStore.values_adopt sample_code)
                 [EnvStore.pure (wrapper sample_code (VFunction 0 ∅))]
                 (EnvStore.Ref 0) h)).1
    = Fulfilled (VObject (<["output" := VNum 2]> {[ "input" := VNum 1 ]})).
Proof. vm_compute. split; reflexivity. Qed.

(** X7 (deferred versions).  Under the conditions of X4, replacing passes
    by passes that throw alike and whose results resolve alike, such as
    a pass by a version of it that returns the same mapping deferred,
    changes neither what the run delivers nor the calls it makes. *)
Theorem deferred_version_equivalent code adopt (ps qs : list pass)
    (input : EnvStore.ref) (h : gmap loc (gmap string value)) :
  flat_table code →
  isThenable (EnvStore.deref h input) = false →
  Forall2 (alike code) ps qs →
  delivery (EnvStore.run code adopt (EnvStore.pure <$> ps) input h)
  = delivery (EnvStore.run code adopt (EnvStore.pure <$> qs) input h).
Proof.
  intros Hflat Hinput Hpq. unfold delivery.
  rewrite !(run_erase_plain code adopt Hflat _ input h Hinput).
  fold (result code ps (EnvStore.deref h input))
       (result code qs (EnvStore.deref h input))
       (calls code ps (EnvStore.deref h input))
       (calls code qs (EnvStore.deref h input)).
  rewrite !result_sequential, !calls_sequential by done.
  by rewrite (sequential_alike code ps qs Hpq).
Qed.

Lemma deferred_version_equivalent_witness :
  delivery (EnvStore.run resolved_code (EnvStore.resolve_with 0)
              (EnvStore.pure <$> [wrapper resolved_code (VFunction 0 ∅);
                                  wrapper resolved_code (VFunction 3 ∅)])
              (EnvStore.Ref 0) {[ 0 := {[ "i" := VNum 0 ]} ]})
  = delivery (EnvStore.run resolved_code (EnvStore.resolve_with 0)
                (EnvStore.pure <$> [(λ _, Return (VObject {[ "a" := VNum 1 ]})) : pass;
                                    wrapper resolved_code (VFunction 3 ∅)])
                (EnvStore.Ref 0) {[ 0 := {[ "i" := VNum 0 ]} ]}).
Proof.
  apply (deferred_version_equivalent resolved_code);
    [apply resolved_code_flat | reflexivity |].
  repeat constructor.
Defined.



(** A pass that deletes a field of the environment it is handed is out of
    these conditions: the run returns an environment without it. *)
Example writing_pass_drops_field :
  (delivery (EnvStore.run sample_code (EnvStore.values_adopt sample_code)
               [EnvStore.drop "input"]
               (EnvStore.Ref 0) {[ 0 := {[ "input" := VNum 1 ]} ]})).1
  = Fulfilled (VObject ∅).
Proof. vm_compute. reflexivity. Qed.

(** ** The input of a run *)

Lemma initial_env_idem input :
  initial_env (VObject (initial_env input)) = initial_env input.
Proof. reflexivity. Qed.

Lemma initial_env_nothing input : adds_nothing input → initial_env input = ∅.
Proof.
  intros Hin. rewrite initial_env_merge.
  by destruct (adds_nothing_merge ∅ input Hin) as [_ ->].
Qed.

(** X9 (the input of a run).  A run uses its input only through the
    fields that the spread copies: it is the run on the mapping of these
    fields.  An input that is absent or otherwise falsy, a number or a
    boolean runs as the empty mapping. *)
Theorem input_through_fields code (ps : list pass) (input : value) :
  run code ps input = run code ps (VObject (initial_env input))
  ∧ (adds_nothing input → run code ps input = run code ps (VObject ∅)).
Proof.
  split.
  - unfold run. by rewrite initial_env_idem.
  - intros Hin. unfold run. by rewrite (initial_env_nothing input Hin).
Qed.

Lemma input_through_fields_witness :
  run sample_code [wrapper sample_code (VFunction 0 ∅)] VUndefined
  = run sample_code [wrapper sample_code (VFunction 0 ∅)] (VObject ∅).
Proof.
  apply (proj2 (input_through_fields sample_code
                  [wrapper sample_code (VFunction 0 ∅)] VUndefined)).
  by left.
Defined.

(** ** From the factory to the runner *)

Section fluent.
Context (code : fid → closure).

Lemma registered_adds (fns : list value) :
  Builder.registered code (Builder.AddPass <$> fns) = wrapper code <$> fns.
Proof.
  induction fns as [| fn fns IH]; [done |].
  rewrite !fmap_cons, registered_add. by rewrite IH.
Qed.

Lemma addPasses_spec (fns : list value) :
  ∀ b (h : gmap loc (list pass)),
    Builder.addPasses code b fns h
    = (b, Builder.exec_ops code b (Builder.AddPass <$> fns) h).
Proof.
  unfold Builder.addPasses.
  induction fns as [| fn fns IH]; intros b h; [done |].
  rewrite fmap_cons, exec_ops_cons. cbn [foldl fst snd].
  change (Builder.addPass code b fn h)
    with (b, Builder.exec_op code b (Builder.AddPass fn) h).
  apply IH.
Qed.

End fluent.

(** X10 (from the factory to the runner).  A builder made by the factory
    is a new object with no pass.  The chained registrations return that
    same builder, and the runner finalized from the end of the chain runs
    the registered values, wrapped, in the order of registration; it
    holds a copy, and no array that existed before is changed. *)
Theorem fluent_registration code (h : gmap loc (list pass))
    (fns : list value) (input : value) b h0 b' h1 r h2 :
  Builder.pipeline h = (b, h0) →
  Builder.addPasses code b fns h0 = (b', h1) →
  Builder.build b' h1 = (r, h2) →
  (b ∉ dom h) ∧ h0 !!! b = []
  ∧ b' = b
  ∧ h1 !!! b = wrapper code <$> fns
  ∧ r ≠ b
  ∧ Builder.call_runner code r input h2 = run code (wrapper code <$> fns) input
  ∧ ∀ l, l ∈ dom h → h2 !!! l = h !!! l.
Proof.
  intros Hnew Hadd Hbuild.
  apply alloc_spec in Hnew as [Hfresh ->].
  rewrite addPasses_spec in Hadd. injection Hadd as <- <-.
  assert (b ∈ dom (<[b := []]> h)) as Hb by set_solver.
  destruct (exec_ops_spec code b (Builder.AddPass <$> fns) _ Hb)
    as (Hb1 & Hown & Hother).
  rewrite lookup_total_insert_eq, registered_adds in Hown. simpl in Hown.
  destruct (build_spec _ _ _ _ Hbuild) as (Hr & Hcopy & Hold).
  unfold Builder.call_runner.
  split_and!; [done | by rewrite lookup_total_insert_eq | done | done
               | congruence | by rewrite Hcopy, Hown |].
  intros l Hl.
  assert (l ≠ b) as Hne by congruence.
  assert (l ∈ dom (<[b := []]> h)) as Hl0.
  { rewrite dom_insert_L. by apply elem_of_union_r. }
  destruct (Hother l Hne Hl0) as [Hl1 Heq1].
  destruct (Hold l Hl1) as [_ Heq2].
  rewrite Heq2, Heq1. by rewrite lookup_total_insert_ne.
Qed.

Lemma fluent_registration_witness :
  Builder.call_runner sample_code 1 (VObject {[ "input" := VNum 1 ]})
    (<[1 := [wrapper sample_code (VFunction 0 ∅);
             wrapper sample_code (VFunction 1 ∅)]]>
       {[ 0 := [wrapper sample_code (VFunction 0 ∅);
                wrapper sample_code (VFunction 1 ∅)] ]})
  = run sample_code
      (wrapper sample_code <$> [VFunction 0 ∅; VFunction 1 ∅])
      (VObject {[ "input" := VNum 1 ]}).
Proof.
  refine (proj1 (proj2 (proj2 (proj2 (proj2 (proj2
    (fluent_registration sample_code ∅ [VFunction 0 ∅; VFunction 1 ∅]
       (VObject {[ "input" := VNum 1 ]}) 0 _ 0 _ 1 _ _ _ _))))))).
  - vm_compute. reflexivity.
  - vm_compute. reflexivity.
  - vm_compute. reflexivity.
Defined.

(** ** The environment objects of a run *)

Lemma touch_keeps_plain : EnvStore.keeps_plain EnvStore.touch.
Proof.
  intros l h Hl. simpl. rewrite lookup_total_insert_eq.
  rewrite isThenable_object in *. simpl in *.
  by rewrite lookup_insert_ne.
Qed.

(** X11 (fresh environments).  Let deferred values resolve, as promises
    do, to values that are not themselves deferred, let the input have no
    callable "then", and let the passes write at most to the environment
    object they are handed, without giving it a callable "then".  The
    first environment of a run is a new object holding a copy of the
    fields of the input, or no field when the runner is called without
    argument.  The run changes no object that existed before it, the
    caller's input included; every environment object it hands to a pass,
    returns, or fulfils its handle with is an object made during that
    run; so two runs share no environment object. *)
Theorem fresh_environment code adopt (passes : list EnvStore.store_pass)
    (input : EnvStore.ref) (h : gmap loc (gmap string value)) :
  flat_table code →
  Forall EnvStore.confined passes →
  Forall EnvStore.keeps_plain passes →
  isThenable (EnvStore.deref h input) = false →
  (∀ env h1, EnvStore.initial_alloc input h = (env, h1) →
     (env ∉ dom h)
     ∧ h1 !! env = Some (initial_env (EnvStore.deref h input))
     ∧ (∀ l m, input = EnvStore.Ref l → h !! l = Some m →
               env ≠ l ∧ h1 !! env = Some m ∧ h1 !! l = Some m)
     ∧ (input = EnvStore.Val VUndefined → h1 !! env = Some ∅))
  ∧ (∀ l m, h !! l = Some m →
            (EnvStore.run code adopt passes input h).2 !! l = Some m)
  ∧ (∀ l, l ∈ EnvStore.run_locs (EnvStore.run code adopt passes input h) →
          (l ∉ dom h) ∧ l ∈ dom (EnvStore.run code adopt passes input h).2)
  ∧ (∀ passes' input' l,
       Forall EnvStore.confined passes' →
       Forall EnvStore.keeps_plain passes' →
       isThenable
         (EnvStore.deref (EnvStore.run code adopt passes input h).2 input')
       = false →
       l ∈ EnvStore.run_locs (EnvStore.run code adopt passes input h) →
       l ∉ EnvStore.run_locs
             (EnvStore.run code adopt passes' input'
                (EnvStore.run code adopt passes input h).2)).
Proof.
  intros Hflat Hpasses Hplain Hinput.
  rewrite (run_plain code adopt Hflat passes input h Hplain Hinput).
  destruct (run_grown code passes input h Hpasses) as (Hext & Hres & Htr).
  split_and!.
  - intros env h1 [Hfresh ->]%alloc_spec.
    split_and!; [done | by rewrite lookup_insert_eq | |].
    + intros l m -> Hl.
      assert (env ≠ l) as Hne.
      { intros Heq. apply Hfresh. rewrite Heq. apply elem_of_dom. eauto. }
      split_and!; [done | | by rewrite lookup_insert_ne].
      rewrite lookup_insert_eq. simpl.
      by rewrite (lookup_total_correct _ _ _ Hl).
    + intros ->. by rewrite lookup_insert_eq.
  - intros l m Hl. by eapply lookup_weaken.
  - intros l. by apply since_run_locs.
  - intros passes' input' l Hpasses' Hplain' Hinput' Hl.
    rewrite (run_plain code adopt Hflat passes' input' _ Hplain' Hinput').
    intros Hl'.
    apply (since_run_locs _ _ _ Hres Htr) in Hl as [_ Hin].
    destruct (run_grown code passes' input'
                (EnvStore.run code (EnvStore.values_adopt code) passes input h).2
                Hpasses')
      as (_ & Hres' & Htr').
    by apply (since_run_locs _ _ _ Hres' Htr') in Hl' as [Hnew _].
Qed.

Lemma fresh_environment_witness :
  (EnvStore.run resolved_code (EnvStore.resolve_with 0)
     [EnvStore.touch; EnvStore.pure (wrapper resolved_code (VFunction 0 ∅));
      EnvStore.touch]
     (EnvStore.Ref 0) {[ 0 := {[ "i" := VNum 0 ]} ]}).2 !! 0
  = Some {[ "i" := VNum 0 ]}.
Proof.
  refine (proj1 (proj2
    (fresh_environment resolved_code (EnvStore.resolve_with 0)
       [EnvStore.touch; EnvStore.pure (wrapper resolved_code (VFunction 0 ∅));
        EnvStore.touch]
       (EnvStore.Ref 0) {[ 0 := {[ "i" := VNum 0 ]} ]}
       resolved_code_flat _ _ _)) 0 _ _).
  - constructor; [apply touch_confined |].
    constructor; [apply pure_confined |].
    constructor; [apply touch_confined | constructor].
  - constructor; [apply touch_keeps_plain |].
    constructor; [apply pure_keeps_plain |].
    constructor; [apply touch_keeps_plain | constructor].
  - reflexivity.
  - reflexivity.
Defined.

(** Two runs on the caller's object at location 0, the first and the last
    pass marking the environment in place, the second returning a
    promise: the caller's object is left as it was, the environments are
    the new objects 1 to 4 and then 5 to 8, and the marks are on the
    environments only. *)
Example fresh_environment_example :
  let passes := [EnvStore.touch;
                 EnvStore.pure (wrapper resolved_code (VFunction 0 ∅));
                 EnvStore.touch] in
  let h : gmap loc (gmap string value) := {[ 0 := {[ "i" := VNum 0 ]} ]} in
  let first := EnvStore.run resolved_code (EnvStore.resolve_with 0)
                 passes (EnvStore.Ref 0) h in
  let second := EnvStore.run resolved_code (EnvStore.resolve_with 0)
                  passes (EnvStore.Ref 0) first.2 in
  first.1.1 = EnvStore.RHandle (EnvStore.RFulfilled (EnvStore.Ref 4))
  ∧ EnvStore.run_locs first = [4; 1; 2; 3]
  ∧ second.1.1 = EnvStore.RHandle (EnvStore.RFulfilled (EnvStore.Ref 8))
  ∧ EnvStore.run_locs second = [8; 5; 6; 7]
  ∧ second.2 !! 0 = Some {[ "i" := VNum 0 ]}
  ∧ second.2 !! 8
    = Some (<["a" := VNum 1]> (<["touched" := VBool true]> {[ "i" := VNum 0 ]})).
Proof. vm_compute. repeat split. Qed.
